(** * PyScaffold command line interface ([pyscaffold/cli.py])

    A shallow embedding of [cli.py] together with the parts of the Python
    standard library it drives ([posixpath], [shlex], [argparse], as shipped
    with CPython 3.11), followed by the properties of option resolution.

    Text is modelled as Rocq [string]s (one [ascii] per code point, i.e. the
    Latin-1 range), dictionaries as [gmap string _], and every way a Python
    call can end without returning (SystemExit, an exception, unbounded
    recursion) as a constructor of [outcome].

    The functions that add the options of the extensions to the parser are
    registered by the installed distributions under the entry point
    [pyscaffold.cli]; [parse_args] takes them as a parameter
    ([cli_extenders]), and the properties that depend on what they add say
    so ([Loop.extends]). *)

From Stdlib Require Import Ascii String List ZArith Lia Bool.
From stdpp Require Import base option list gmap strings fin_maps.

Open Scope string_scope.
Open Scope list_scope.

(** ** Outcomes of a call *)

Inductive exit_reason :=
| HelpRequested | VersionRequested
| AmbiguousOption | ExpectedOneArgument | IgnoredExplicitArgument
| NotAllowedWith | InvalidChoice | RequiredArguments | UnrecognizedArguments
| CannotOpenFile.

Inductive exn :=
| ValueError_NoClosingQuotation | ValueError_NoEscapedCharacter
| AttributeError | TypeError | KeyError | OldSetuptools | RecursionError.

Inductive outcome (A : Type) :=
| Ok (a : A)
| Exit (status : Z) (why : exit_reason)
| Raise (e : exn).
Arguments Ok {A} a.
Arguments Exit {A} status why.
Arguments Raise {A} e.

#[global] Instance outcome_ret : MRet outcome := fun _ a => Ok a.
#[global] Instance outcome_bind : MBind outcome := fun _ _ k m =>
  match m with
  | Ok a => k a
  | Exit st why => Exit st why
  | Raise e => Raise e
  end.

Definition is_ok {A} (m : outcome A) : Prop := exists a, m = Ok a.

(** The call returned. *)
Definition returned {A} (m : outcome A) : bool :=
  match m with
  | Ok _ => true
  | _ => false
  end.

(** The call did not return: it exited or raised. *)
Definition failed {A} (m : outcome A) : Prop :=
  match m with
  | Ok _ => False
  | _ => True
  end.

(** ** Python [str] helpers *)

Module Str.

Fixpoint mem (c : ascii) (s : string) : bool :=
  match s with
  | EmptyString => false
  | String d s' => if Ascii.eqb c d then true else mem c s'
  end.

(** [s.startswith(p)] *)
Fixpoint startswith (s p : string) {struct p} : bool :=
  match p with
  | EmptyString => true
  | String a p' =>
      match s with
      | EmptyString => false
      | String b s' => Ascii.eqb a b && startswith s' p'
      end
  end.

Fixpoint last_char (s : string) : option ascii :=
  match s with
  | EmptyString => None
  | String c EmptyString => Some c
  | String _ s' => last_char s'
  end.

Definition endswith_char (s : string) (c : ascii) : bool :=
  match last_char s with
  | Some d => Ascii.eqb c d
  | None => false
  end.

(** [s.rstrip(c)] for a one-character set [c]. *)
Fixpoint rstrip (c : ascii) (s : string) : string :=
  match s with
  | EmptyString => EmptyString
  | String d s' =>
      match rstrip c s' with
      | EmptyString => if Ascii.eqb d c then EmptyString else String d EmptyString
      | r => String d r
      end
  end.

(** [s.split(c, 1)] when [c] occurs in [s]: the text before the first [c]
    and the text after it. *)
Fixpoint split_once (c : ascii) (s : string) : option (string * string) :=
  match s with
  | EmptyString => None
  | String d s' =>
      if Ascii.eqb d c then Some (EmptyString, s')
      else match split_once c s' with
           | Some (a, b) => Some (String d a, b)
           | None => None
           end
  end.

Definition repeat_char (c : ascii) (n : nat) : string :=
  string_of_list_ascii (repeat c n).

Definition is_digit (c : ascii) : bool :=
  let n := nat_of_ascii c in (48 <=? n)%nat && (n <=? 57)%nat.

(** [\w] under [re.ASCII]. *)
Definition is_word (c : ascii) : bool :=
  let n := nat_of_ascii c in
  is_digit c || ((65 <=? n)%nat && (n <=? 90)%nat)
  || ((97 <=? n)%nat && (n <=? 122)%nat) || (n =? 95)%nat.

(** Line boundaries of [str.splitlines] in the Latin-1 range. *)
Definition is_linebreak (c : ascii) : bool :=
  let n := nat_of_ascii c in
  (n =? 10)%nat || (n =? 11)%nat || (n =? 12)%nat || (n =? 13)%nat
  || (n =? 28)%nat || (n =? 29)%nat || (n =? 30)%nat || (n =? 133)%nat.

(** [s.splitlines()]: [cur] is the line being collected, in reverse;
    a carriage return directly followed by a line feed is one boundary. *)
Fixpoint splitlines_aux (cur : list ascii) (s : string) : list string :=
  match s with
  | EmptyString =>
      match cur with
      | [] => []
      | _ => [string_of_list_ascii (rev cur)]
      end
  | String c s' =>
      if is_linebreak c then
        let line := string_of_list_ascii (rev cur) in
        match s' with
        | String d s'' =>
            if Ascii.eqb c "013" && Ascii.eqb d "010"
            then line :: splitlines_aux [] s''
            else line :: splitlines_aux [] s'
        | EmptyString => [line]
        end
      else splitlines_aux (c :: cur) s'
  end.

Definition splitlines (s : string) : list string := splitlines_aux [] s.

End Str.

(** ** The process environment *)

Inductive node :=
| File (content : string)   (* what [open(path).read()] returns *)
| Dir.

Record World := {
  environ : gmap string string;          (* [os.environ] *)
  fs : string -> option node;            (* path resolution, [os.stat] *)
  pw_dir : option string;                (* [pwd.getpwuid(os.getuid()).pw_dir] *)
  getpwnam : string -> option string;    (* home directory of a named user *)
  setuptools_ok : bool;                  (* [utils.check_setuptools_version] passes *)
  recursion_limit : nat;                 (* nested calls the interpreter allows *)
}.

Definition open_read (w : World) (path : string) : option string :=
  match fs w path with
  | Some (File text) => Some text
  | _ => None                            (* OSError *)
  end.

Definition getenv (w : World) (name : string) : option string :=
  environ w !! name.

(** ** [os.path] (posixpath) *)

Module posixpath.

Definition sep : ascii := "/"%char.

Definition exists_ (w : World) (path : string) : bool :=
  match fs w path with
  | Some _ => true
  | None => false
  end.

(** [join(a, b)]. *)
Definition join (a b : string) : string :=
  if Str.startswith b "/" then b
  else if (String.eqb a "" || Str.endswith_char a sep)%bool then a +:+ b
  else a +:+ "/" +:+ b.

(** [expandvars], which is [re.sub] with the pattern [\$(\w+|\{[^}]*\}?)]
    in the [posixpath.py] of CPython 3.11.2: one left-to-right pass over
    the matches; unknown variables and unterminated braces are left as they
    are, substituted text is not scanned again. *)
Inductive vmode :=
| Plain
| Dollar
| InName (name : list ascii)     (* reversed *)
| InBrace (name : list ascii).   (* reversed *)

Definition subst_var (w : World) (raw name : string) : string :=
  match getenv w name with
  | Some v => v
  | None => raw
  end.

Definition flush_name (w : World) (name : list ascii) : string :=
  let n := string_of_list_ascii (rev name) in subst_var w ("$" +:+ n) n.

Definition plain_step (c : ascii) : string * vmode :=
  if Ascii.eqb c "$" then ("", Dollar) else (String c "", Plain).

Definition var_step (w : World) (m : vmode) (c : ascii) : string * vmode :=
  match m with
  | Plain => plain_step c
  | Dollar =>
      if Str.is_word c then ("", InName [c])
      else if Ascii.eqb c "{" then ("", InBrace [])
      else let '(o, m') := plain_step c in ("$" +:+ o, m')
  | InName n =>
      if Str.is_word c then ("", InName (c :: n))
      else let '(o, m') := plain_step c in (flush_name w n +:+ o, m')
  | InBrace n =>
      if Ascii.eqb c "}" then
        let name := string_of_list_ascii (rev n) in
        (subst_var w ("${" +:+ name +:+ "}") name, Plain)
      else ("", InBrace (c :: n))
  end.

Definition var_end (w : World) (m : vmode) : string :=
  match m with
  | Plain => ""
  | Dollar => "$"
  | InName n => flush_name w n
  | InBrace n => "${" +:+ string_of_list_ascii (rev n)
  end.

Fixpoint expandvars_from (w : World) (m : vmode) (path : string) : string :=
  match path with
  | EmptyString => var_end w m
  | String c rest =>
      let '(o, m') := var_step w m c in o +:+ expandvars_from w m' rest
  end.

Definition expandvars (w : World) (path : string) : string :=
  expandvars_from w Plain path.

(** [expanduser]. *)
Definition expanduser (w : World) (path : string) : string :=
  match path with
  | String "~" rest =>
      let '(name, tail) :=
        match Str.split_once sep rest with
        | Some (n, t) => (n, String sep t)
        | None => (rest, "")
        end in
      let userhome :=
        if String.eqb name "" then
          match getenv w "HOME" with
          | Some h => Some h
          | None => pw_dir w
          end
        else getpwnam w name in
      match userhome with
      | None => path
      | Some h =>
          let r := Str.rstrip sep h +:+ tail in
          if String.eqb r "" then "/" else r
      end
  | _ => path
  end.

End posixpath.

(** ** [cli.py]: configuration directory and profile file *)

Definition OSX_CONFIG := "${HOME}/Library/Application Support".
Definition WIN_CONFIG := "${APPDATA}".
Definition XDG_CONFIG := "${XDG_CONFIG_HOME}".
Definition UNIX_CONFIG := "${HOME}/.config".
Definition DEFAULT_PROFILE := "default".

Definition config_candidates (w : World) : list string :=
  map (posixpath.expandvars w)
      [OSX_CONFIG; WIN_CONFIG; XDG_CONFIG; UNIX_CONFIG].

(** The [for candidate in candidates] loop of [get_config_dir], with the
    statement after the loop as [fallback]. *)
Fixpoint first_existing (w : World) (candidates : list string)
    (fallback : string) : string :=
  match candidates with
  | [] => fallback
  | candidate :: rest =>
      if posixpath.exists_ w candidate
      then posixpath.join candidate "pyscaffold"
      else first_existing w rest fallback
  end.

Definition get_config_dir (w : World) : string :=
  first_existing w (config_candidates w)
    (posixpath.expanduser w (posixpath.join "~" ".pyscaffold")).

(** [profile or DEFAULT_PROFILE]: [None] and the empty string are falsy. *)
Definition profile_or_default (profile : option string) : string :=
  match profile with
  | Some p => if String.eqb p "" then DEFAULT_PROFILE else p
  | None => DEFAULT_PROFILE
  end.

Definition get_args_file (w : World) (profile : option string) : string :=
  posixpath.join (get_config_dir w) (profile_or_default profile +:+ ".args").

(** ** [shlex.split(line, comments=True)] (POSIX mode, [whitespace_split])

    [shlex.read_token] is a loop over the characters of the input with the
    lexer state in [self.state]; here the loop is a recursion over the
    remaining input. [lex] carries [self.token] and the local [quoted], and
    returns the tokens that iterating the lexer yields. [instream.readline()]
    is the state [InComment], which drops characters up to and including the
    next line feed. *)

Module shlex.

Definition is_whitespace (c : ascii) : bool :=
  let n := nat_of_ascii c in
  (n =? 32)%nat || (n =? 9)%nat || (n =? 13)%nat || (n =? 10)%nat.
Definition is_commenter (c : ascii) : bool := Ascii.eqb c "#".
Definition backslash : ascii := "092"%char.
Definition squote : ascii := "039"%char.
Definition dquote : ascii := "034"%char.
Definition is_escape (c : ascii) : bool := Ascii.eqb c backslash.
Definition is_quote (c : ascii) : bool :=
  Ascii.eqb c squote || Ascii.eqb c dquote.
Definition is_escapedquote (c : ascii) : bool := Ascii.eqb c dquote.
Definition is_newline (c : ascii) : bool := Ascii.eqb c "010".

Inductive escaped :=
| EscWord                 (* [escapedstate = 'a'] *)
| EscQuote (q : ascii).   (* [escapedstate] is a quote character *)

Inductive lexstate :=
| InWhitespace            (* [state = ' '] *)
| InWord                  (* [state = 'a'] *)
| InQuote (q : ascii)     (* [state] is the quote character [q] *)
| InEscape (e : escaped)  (* [state] is the escape character *)
| InComment.              (* inside [instream.readline()] *)

Definition resume (e : escaped) : lexstate :=
  match e with
  | EscWord => InWord
  | EscQuote q => InQuote q
  end.

Definition snoc (token : string) (c : ascii) : string :=
  token +:+ String c "".

(** [self.token or (self.posix and quoted)] *)
Definition has_token (token : string) (quoted : bool) : bool :=
  negb (String.eqb token "") || quoted.

(** End of input in a state that breaks out of the loop: the token is
    returned unless it is empty and unquoted, and the next call reports the
    end of the stream. *)
Definition finish (token : string) (quoted : bool) : outcome (list string) :=
  if has_token token quoted then Ok [token] else Ok [].

Fixpoint lex (st : lexstate) (token : string) (quoted : bool) (s : string)
    : outcome (list string) :=
  match s with
  | EmptyString =>
      match st with
      | InWhitespace | InWord | InComment => finish token quoted
      | InQuote _ => Raise ValueError_NoClosingQuotation
      | InEscape _ => Raise ValueError_NoEscapedCharacter
      end
  | String c s' =>
      match st with
      | InComment =>
          if is_newline c then lex InWhitespace token quoted s'
          else lex InComment token quoted s'
      | InWhitespace =>
          if is_whitespace c then
            if has_token token quoted
            then rest ← lex InWhitespace "" false s'; Ok (token :: rest)
            else lex InWhitespace token quoted s'
          else if is_commenter c then lex InComment token quoted s'
          else if is_escape c then lex (InEscape EscWord) token quoted s'
          else if is_quote c then lex (InQuote c) token quoted s'
          else lex InWord (String c "") quoted s'
      | InQuote q =>
          if Ascii.eqb c q then lex InWord token true s'
          else if is_escape c && is_escapedquote q
          then lex (InEscape (EscQuote q)) token true s'
          else lex (InQuote q) (snoc token c) true s'
      | InEscape e =>
          let token' :=
            match e with
            | EscQuote q =>
                if negb (is_escape c) && negb (Ascii.eqb c q)
                then snoc token "\" else token
            | EscWord => token
            end in
          lex (resume e) (snoc token' c) quoted s'
      | InWord =>
          if is_whitespace c then
            if has_token token quoted
            then rest ← lex InWhitespace "" false s'; Ok (token :: rest)
            else lex InWhitespace token quoted s'
          else if is_commenter c then
            if has_token token quoted
            then rest ← lex InComment "" false s'; Ok (token :: rest)
            else lex InComment token quoted s'
          else if is_quote c then lex (InQuote c) token quoted s'
          else if is_escape c then lex (InEscape EscWord) token quoted s'
          else lex InWord (snoc token c) quoted s'
      end
  end.

Definition split (s : string) : outcome (list string) :=
  lex InWhitespace "" false s.

End shlex.

(** [ArgumentParser.convert_arg_line_to_args] as overridden in [cli.py]. *)
Definition convert_arg_line_to_args (arg_line : string) : outcome (list string) :=
  shlex.split arg_line.

(** ** Option values *)

(** The functions [run_scaffold] and [list_actions] used as values of the
    [command] option. *)
Inductive command := CmdRunScaffold | CmdListActions.

(** The Python values that options take. An object that the program only
    passes around (the function with which an extension registers itself)
    is known by a name. *)
#[local] Unset Elimination Schemes.
Inductive value :=
| VNone
| VStr (s : string)
| VBool (b : bool)
| VInt (n : Z)
| VList (l : list value)
| VCommand (c : command)
| VObject (name : string).
#[local] Set Elimination Schemes.

#[global] Instance command_eq_dec : EqDecision command.
Proof. solve_decision. Defined.

Fixpoint value_eq_dec (x y : value) {struct x} : Decision (x = y).
Proof.
  destruct x as [|s|b|n|l|c|o], y as [|s'|b'|n'|l'|c'|o'];
    try (right; discriminate).
  - left; reflexivity.
  - destruct (decide (s = s')); [left|right]; congruence.
  - destruct (decide (b = b')); [left|right]; congruence.
  - destruct (decide (n = n')); [left|right]; congruence.
  - destruct (List.list_eq_dec value_eq_dec l l'); [left|right]; congruence.
  - destruct (decide (c = c')); [left|right]; congruence.
  - destruct (decide (o = o')); [left|right]; congruence.
Defined.
#[global] Existing Instance value_eq_dec.

(** ** [argparse.ArgumentParser] with [prefix_chars='-'],
    [fromfile_prefix_chars='@'], [allow_abbrev=True], [add_help=True] *)

Module argparse.

Definition SUPPRESS := "==SUPPRESS==".

Inductive nargs_t :=
| NargsOne      (* [nargs=None]: exactly one argument *)
| NargsZero.    (* [nargs=0] *)

(** The action classes [cli.py] uses, and [append_const], with which an
    extension adds itself to the list of the [extensions] option. *)
Inductive action_kind :=
| Store                       (* [_StoreAction] *)
| StoreConst (const : value)  (* [_StoreConstAction], [_StoreTrueAction] *)
| AppendConst (const : value) (* [_AppendConstAction] *)
| Help                        (* [_HelpAction] *)
| Version.                    (* [_VersionAction] *)

Record Action := {
  option_strings : list string;
  dest : string;
  nargs : nargs_t;
  kind : action_kind;
  default : value;
  choices : option (list string);
  required : bool;
}.

#[global] Instance nargs_eq_dec : EqDecision nargs_t.
Proof. solve_decision. Defined.
#[global] Instance action_kind_eq_dec : EqDecision action_kind.
Proof. solve_decision. Defined.
#[global] Instance Action_eq_dec : EqDecision Action.
Proof. solve_decision. Defined.

Record ArgumentParser := {
  actions : list Action;                           (* [_actions] *)
  mutually_exclusive_groups : list (list Action);  (* [_group_actions] of each group *)
  parser_defaults : list (string * value);         (* [_defaults] *)
}.

Definition assoc {V} (k : string) (l : list (string * V)) : option V :=
  snd <$> find (fun kv => String.eqb (fst kv) k) l.

(** *** Building the parser *)

Definition class_default (k : action_kind) : value :=
  match k with
  | Store | StoreConst _ | AppendConst _ => VNone
  | Help | Version => VStr SUPPRESS
  end.

Definition class_nargs (k : action_kind) : nargs_t :=
  match k with
  | Store => NargsOne
  | StoreConst _ | AppendConst _ | Help | Version => NargsZero
  end.

(** What [add_argument] turns its keywords into: positionals (no flags) are
    required; without a [default] keyword the parser-level default of the
    destination is used, then the default of the action class. *)
Definition make_action (p : ArgumentParser) (flags : list string)
    (dest : string) (k : action_kind) (default : option value)
    (choices : option (list string)) : Action :=
  {| option_strings := flags;
     dest := dest;
     nargs := class_nargs k;
     kind := k;
     default :=
       match default with
       | Some v => v
       | None =>
           match assoc dest (parser_defaults p) with
           | Some v => v
           | None => class_default k
           end
       end;
     choices := choices;
     required := match flags with [] => true | _ => false end |}.

Definition add_argument (flags : list string) (dest : string)
    (k : action_kind) (default : option value)
    (choices : option (list string)) (p : ArgumentParser) : ArgumentParser :=
  {| actions := actions p ++ [make_action p flags dest k default choices];
     mutually_exclusive_groups := mutually_exclusive_groups p;
     parser_defaults := parser_defaults p |}.

Definition add_mutually_exclusive_group (p : ArgumentParser) : ArgumentParser :=
  {| actions := actions p;
     mutually_exclusive_groups := mutually_exclusive_groups p ++ [[]];
     parser_defaults := parser_defaults p |}.

(** [group.add_argument] on the group created last. *)
Definition group_add_argument (flags : list string) (dest : string)
    (k : action_kind) (default : option value)
    (choices : option (list string)) (p : ArgumentParser) : ArgumentParser :=
  let a := make_action p flags dest k default choices in
  {| actions := actions p ++ [a];
     mutually_exclusive_groups :=
       match rev (mutually_exclusive_groups p) with
       | g :: gs => rev gs ++ [g ++ [a]]
       | [] => []
       end;
     parser_defaults := parser_defaults p |}.

Definition set_defaults (kvs : list (string * value)) (p : ArgumentParser)
    : ArgumentParser :=
  {| actions :=
       map (fun a =>
              match assoc (dest a) kvs with
              | Some v =>
                  {| option_strings := option_strings a; dest := dest a;
                     nargs := nargs a; kind := kind a; default := v;
                     choices := choices a; required := required a |}
              | None => a
              end) (actions p);
     mutually_exclusive_groups := mutually_exclusive_groups p;
     parser_defaults := kvs ++ parser_defaults p |}.

(** [ArgumentParser(...)]: the constructor adds the help option. *)
Definition new_parser : ArgumentParser :=
  add_argument ["-h"; "--help"] "help" Help (Some (VStr SUPPRESS)) None
    {| actions := []; mutually_exclusive_groups := []; parser_defaults := [] |}.

(** [_option_string_actions], in insertion order. *)
Definition option_string_actions (p : ArgumentParser) : list (string * Action) :=
  flat_map (fun a => map (fun o => (o, a)) (option_strings a)) (actions p).

Definition lookup_option (p : ArgumentParser) (o : string) : option Action :=
  assoc o (option_string_actions p).

(** *** Expanding [@file] arguments *)

Fixpoint convert_lines (lines : list string) : outcome (list string) :=
  match lines with
  | [] => Ok []
  | arg_line :: rest =>
      toks ← convert_arg_line_to_args arg_line;
      more ← convert_lines rest;
      Ok (toks ++ more)
  end.

(** [_read_args_from_files]; [depth] is the number of nested calls still
    allowed by the interpreter. *)
Fixpoint read_args_from_files (w : World) (depth : nat)
    (arg_strings : list string) : outcome (list string) :=
  match depth with
  | O => Raise RecursionError
  | S depth' =>
      (fix each (l : list string) : outcome (list string) :=
         match l with
         | [] => Ok []
         | arg_string :: l' =>
             match arg_string with
             | String "@" path =>
                 match open_read w path with
                 | None => Exit 2 CannotOpenFile
                 | Some text =>
                     toks ← convert_lines (Str.splitlines text);
                     expanded ← read_args_from_files w depth' toks;
                     more ← each l';
                     Ok (expanded ++ more)
                 end
             | _ => more ← each l'; Ok (arg_string :: more)
             end
         end) arg_strings
  end.

(** *** Classifying argument strings *)

Definition option_tuple : Type := option Action * string * option string.

Inductive pattern :=
| PatA                       (* 'A': an argument *)
| PatO (tup : option_tuple)  (* 'O': an option string *)
| PatDash.                   (* '-': the first [--] *)

Definition all_digits (s : string) : bool :=
  forallb Str.is_digit (list_ascii_of_string s).

Definition chomp_newline (s : string) : string :=
  match Str.last_char s with
  | Some "010"%char => String.substring 0 (String.length s - 1) s
  | _ => s
  end.

(** [_negative_number_matcher]: [^-\d+$|^-\d*\.\d+$]. *)
Definition negative_number (s : string) : bool :=
  match s with
  | String "-" r =>
      let r := chomp_newline r in
      (all_digits r && negb (String.eqb r ""))
      || match Str.split_once "." r with
         | Some (i, f) => all_digits i && all_digits f && negb (String.eqb f "")
         | None => false
         end
  | _ => false
  end.

Definition has_negative_number_optionals (p : ArgumentParser) : bool :=
  existsb (fun oa => negative_number (fst oa)) (option_string_actions p).

Definition second_is_prefix_char (s : string) : bool :=
  match s with
  | String _ (String "-" _) => true
  | _ => false
  end.

Definition get_option_tuples (p : ArgumentParser) (option_string : string)
    : list option_tuple :=
  if second_is_prefix_char option_string then
    let '(option_prefix, explicit_arg) :=
      match Str.split_once "=" option_string with
      | Some (o, e) => (o, Some e)
      | None => (option_string, None)
      end in
    omap (fun oa : string * Action =>
            if Str.startswith (fst oa) option_prefix
            then Some (Some (snd oa), fst oa, explicit_arg) else None)
         (option_string_actions p)
  else
    let short_option_prefix := String.substring 0 2 option_string in
    let short_explicit_arg :=
      String.substring 2 (String.length option_string - 2) option_string in
    omap (fun oa : string * Action =>
            if String.eqb (fst oa) short_option_prefix
            then Some (Some (snd oa), fst oa, Some short_explicit_arg)
            else if Str.startswith (fst oa) option_string
            then Some (Some (snd oa), fst oa, None) else None)
         (option_string_actions p).

Definition parse_optional (p : ArgumentParser) (arg_string : string)
    : outcome (option option_tuple) :=
  match arg_string with
  | EmptyString => Ok None
  | String c tail =>
      if negb (Ascii.eqb c "-") then Ok None
      else
        match lookup_option p arg_string with
        | Some a => Ok (Some (Some a, arg_string, None))
        | None =>
            if String.eqb tail "" then Ok None
            else
              let by_equals :=
                match Str.split_once "=" arg_string with
                | Some (o, e) =>
                    match lookup_option p o with
                    | Some a => Some (Some a, o, Some e)
                    | None => None
                    end
                | None => None
                end in
              match by_equals with
              | Some tup => Ok (Some tup)
              | None =>
                  match get_option_tuples p arg_string with
                  | _ :: _ :: _ => Exit 2 AmbiguousOption
                  | [tup] => Ok (Some tup)
                  | [] =>
                      if negative_number arg_string
                         && negb (has_negative_number_optionals p)
                      then Ok None
                      else if Str.mem " " arg_string then Ok None
                      else Ok (Some (None, arg_string, None))
                  end
              end
        end
  end.

Definition ctoken : Type := string * pattern.

Fixpoint classify (p : ArgumentParser) (arg_strings : list string)
    : outcome (list ctoken) :=
  match arg_strings with
  | [] => Ok []
  | arg_string :: rest =>
      if String.eqb arg_string "--"
      then Ok ((arg_string, PatDash) :: map (fun a => (a, PatA)) rest)
      else
        tup ← parse_optional p arg_string;
        more ← classify p rest;
        Ok ((arg_string, match tup with Some t => PatO t | None => PatA end)
              :: more)
  end.

(** *** Taking actions *)

(** The variables that [_parse_known_args] and its closures share. *)
Record pstate := {
  namespace : gmap string value;
  seen_actions : list Action;
  seen_non_default_actions : list Action;
  positionals : list Action;
  extras : list string;
}.

Definition setattr (st : pstate) (name : string) (v : value) : pstate :=
  {| namespace := <[name := v]> (namespace st);
     seen_actions := seen_actions st;
     seen_non_default_actions := seen_non_default_actions st;
     positionals := positionals st;
     extras := extras st |}.

Definition mark_seen (st : pstate) (a : Action) : pstate :=
  {| namespace := namespace st;
     seen_actions := a :: seen_actions st;
     seen_non_default_actions := seen_non_default_actions st;
     positionals := positionals st;
     extras := extras st |}.

Definition mark_seen_non_default (st : pstate) (a : Action) : pstate :=
  {| namespace := namespace st;
     seen_actions := seen_actions st;
     seen_non_default_actions := a :: seen_non_default_actions st;
     positionals := positionals st;
     extras := extras st |}.

Definition set_positionals (st : pstate) (ps : list Action) : pstate :=
  {| namespace := namespace st;
     seen_actions := seen_actions st;
     seen_non_default_actions := seen_non_default_actions st;
     positionals := ps;
     extras := extras st |}.

Definition add_extras (st : pstate) (l : list string) : pstate :=
  {| namespace := namespace st;
     seen_actions := seen_actions st;
     seen_non_default_actions := seen_non_default_actions st;
     positionals := positionals st;
     extras := extras st ++ l |}.

(** [arg_strings.remove('--')] *)
Fixpoint remove_first_dashdash (l : list string) : list string :=
  match l with
  | [] => []
  | x :: l' => if String.eqb x "--" then l' else x :: remove_first_dashdash l'
  end.

Definition check_value (a : Action) (v : string) : outcome unit :=
  match choices a with
  | Some cs =>
      if existsb (String.eqb v) cs then Ok tt else Exit 2 InvalidChoice
  | None => Ok tt
  end.

Fixpoint check_values (a : Action) (vs : list string) : outcome unit :=
  match vs with
  | [] => Ok tt
  | v :: vs' => _ ← check_value a v; check_values a vs'
  end.

(** [_get_values] for [nargs] in {None, 0}; the type function is the
    identity. *)
Definition get_values (a : Action) (arg_strings : list string) : outcome value :=
  let arg_strings := remove_first_dashdash arg_strings in
  match arg_strings, nargs a with
  | [s], NargsOne => _ ← check_value a s; Ok (VStr s)
  | _, _ => _ ← check_values a arg_strings; Ok (VList (map VStr arg_strings))
  end.

(** The other members of every mutually exclusive group [a] belongs to. *)
Definition action_conflicts (p : ArgumentParser) (a : Action) : list Action :=
  flat_map (fun g : list Action =>
              if bool_decide (a ∈ g)
              then List.filter (fun b => negb (bool_decide (b = a))) g
              else [])
           (mutually_exclusive_groups p).

(** [_copy_items(getattr(namespace, dest, None))] followed by
    [items.append(const)]: only lists have [append]. *)
Definition append_item (items : option value) (const : value) : outcome value :=
  match items with
  | None | Some VNone => Ok (VList [const])
  | Some (VList l) => Ok (VList (l ++ [const]))
  | Some _ => Raise AttributeError
  end.

(** [action(self, namespace, values, option_string)] *)
Definition call_action (a : Action) (values : value) (st : pstate)
    : outcome pstate :=
  match kind a with
  | Store => Ok (setattr st (dest a) values)
  | StoreConst c => Ok (setattr st (dest a) c)
  | AppendConst c =>
      items ← append_item (namespace st !! dest a) c;
      Ok (setattr st (dest a) items)
  | Help => Exit 0 HelpRequested
  | Version => Exit 0 VersionRequested
  end.

(** [take_action]. The values computed by [_get_values] are fresh objects,
    so the identity tests against [action.default] and [SUPPRESS] succeed
    (the first one only matters for members of a mutually exclusive group,
    whose values are fresh lists). *)
Definition take_action (p : ArgumentParser) (st : pstate) (a : Action)
    (argument_strings : list string) : outcome pstate :=
  let st := mark_seen st a in
  argument_values ← get_values a argument_strings;
  let st := mark_seen_non_default st a in
  if existsb (fun c => bool_decide (c ∈ seen_non_default_actions st))
             (action_conflicts p a)
  then Exit 2 NotAllowedWith
  else call_action a argument_values st.

Fixpoint take_actions (p : ArgumentParser) (st : pstate)
    (action_tuples : list (Action * list string)) : outcome pstate :=
  match action_tuples with
  | [] => Ok st
  | (a, args) :: more => st' ← take_action p st a args; take_actions p st' more
  end.

(** *** Consuming optionals and positionals *)

(** The [while True] loop of [consume_optional] when the option string came
    with an explicit argument: the action tuples collected so far and, when
    the explicit argument is used up by single-dash flags, the last action,
    whose arguments are then matched against the following strings. *)
Fixpoint cluster (p : ArgumentParser) (a : Action) (option_string : string)
    (explicit_arg : string)
    : outcome (list (Action * list string) * option Action) :=
  match nargs a with
  | NargsOne => Ok ([(a, [explicit_arg])], None)
  | NargsZero =>
      if second_is_prefix_char option_string
      then Exit 2 IgnoredExplicitArgument
      else
        match explicit_arg with
        | EmptyString => Exit 2 IgnoredExplicitArgument
        | String c new_explicit_arg =>
            let option_string := String "-" (String c "") in
            match lookup_option p option_string with
            | None => Exit 2 IgnoredExplicitArgument
            | Some a' =>
                if String.eqb new_explicit_arg ""
                then Ok ([(a, [])], Some a')
                else
                  '(tuples, pending) ← cluster p a' option_string new_explicit_arg;
                  Ok ((a, []) :: tuples, pending)
            end
        end
  end.

Definition is_option (t : ctoken) : bool :=
  match snd t with
  | PatO _ => true
  | _ => false
  end.

(** [start_index <= max_option_string_index] *)
Definition has_option (toks : list ctoken) : bool := existsb is_option toks.

(** The last [consume_positionals], once no option string is left: each
    remaining positional takes what its pattern matches (one 'A' with the
    '-' next to it, if any), the rest is extra. *)
Fixpoint consume_trailing (p : ArgumentParser) (st : pstate)
    (toks : list ctoken) : outcome pstate :=
  match positionals st with
  | [] => Ok (add_extras st (map fst toks))
  | a :: ps =>
      match toks with
      | (x, PatA) :: (d, PatDash) :: rest =>
          st' ← take_action p (set_positionals st ps) a [x; d];
          consume_trailing p st' rest
      | (x, PatA) :: rest =>
          st' ← take_action p (set_positionals st ps) a [x];
          consume_trailing p st' rest
      | (d, PatDash) :: (y, PatA) :: rest =>
          st' ← take_action p (set_positionals st ps) a [d; y];
          consume_trailing p st' rest
      | _ => Ok (add_extras st (map fst toks))
      end
  end.

(** The [while start_index <= max_option_string_index] loop followed by the
    code after it. The argument strings from [start_index] on, with their
    pattern letters, are [toks]; before the last option string every
    pattern letter is 'A' or 'O'. *)
Fixpoint consume (p : ArgumentParser) (st : pstate) (toks : list ctoken)
    : outcome pstate :=
  match toks with
  | [] => consume_trailing p st []
  | (s, pat) :: rest =>
      if has_option toks then
        match pat with
        | PatO (None, _, _) => consume p (add_extras st [s]) rest
        | PatO (Some a, option_string, explicit_arg) =>
            '(tuples, pending) ←
              match explicit_arg with
              | Some e => cluster p a option_string e
              | None => Ok ([], Some a)
              end;
            match pending with
            | None => st' ← take_actions p st tuples; consume p st' rest
            | Some a' =>
                match nargs a' with
                | NargsZero =>
                    st' ← take_actions p st (tuples ++ [(a', [])]);
                    consume p st' rest
                | NargsOne =>
                    match rest with
                    | (v, PatA) :: rest' =>
                        st' ← take_actions p st (tuples ++ [(a', [v])]);
                        consume p st' rest'
                    | _ => Exit 2 ExpectedOneArgument
                    end
                end
            end
        | _ =>
            match positionals st with
            | a :: ps =>
                st' ← take_action p (set_positionals st ps) a [s];
                consume p st' rest
            | [] => consume p (add_extras st [s]) rest
            end
        end
      else consume_trailing p st toks
  end.

(** *** [parse_known_args] and [parse_args] *)

Definition initial_namespace (p : ArgumentParser) : gmap string value :=
  let ns :=
    fold_left
      (fun (ns : gmap string value) a =>
         if String.eqb (dest a) SUPPRESS then ns
         else match ns !! dest a with
              | Some _ => ns
              | None =>
                  if bool_decide (default a = VStr SUPPRESS) then ns
                  else <[dest a := default a]> ns
              end)
      (actions p) ∅ in
  fold_left
    (fun (ns : gmap string value) kv =>
       match ns !! fst kv with
       | Some _ => ns
       | None => <[fst kv := snd kv]> ns
       end)
    (parser_defaults p) ns.

Definition initial_state (p : ArgumentParser) : pstate :=
  {| namespace := initial_namespace p;
     seen_actions := [];
     seen_non_default_actions := [];
     positionals := List.filter (fun a => bool_decide (option_strings a = [])) (actions p);
     extras := [] |}.

Definition missing_required (p : ArgumentParser) (st : pstate) : list Action :=
  List.filter (fun a => required a && negb (bool_decide (a ∈ seen_actions st)))
              (actions p).

(** The argument strings as the loop sees them: file references expanded
    and every string given its pattern letter. *)
Definition classified_args (p : ArgumentParser) (w : World)
    (args : list string) : outcome (list ctoken) :=
  arg_strings ← read_args_from_files w (recursion_limit w) args;
  classify p arg_strings.

(** The state in which [_parse_known_args] checks the required actions. *)
Definition parse_state (p : ArgumentParser) (w : World) (args : list string)
    : outcome pstate :=
  toks ← classified_args p w args;
  consume p (initial_state p) toks.

Definition parse_known_args (p : ArgumentParser) (w : World)
    (args : list string) : outcome (gmap string value * list string) :=
  st ← parse_state p w args;
  match missing_required p st with
  | _ :: _ => Exit 2 RequiredArguments
  | [] => Ok (namespace st, extras st)
  end.

Definition parse_args (p : ArgumentParser) (w : World) (args : list string)
    : outcome (gmap string value) :=
  '(ns, argv) ← parse_known_args p w args;
  match argv with
  | _ :: _ => Exit 2 UnrecognizedArguments
  | [] => Ok ns
  end.

End argparse.

(** ** [cli.py]: the parser and [parse_args] *)

(** What a call prints or does to the outside world, in order. *)
Inductive effect :=
| Print (text : string)          (* [print(text)] *)
| CreateFile (path : string)
| CreateDir (path : string)
| RunProcess (cmd : string).

Definition is_print (e : effect) : bool :=
  match e with
  | Print _ => true
  | _ => false
  end.

(** [getattr(logging, name)] for the level names of the [logging] module. *)
Definition logging_getattr (name : string) : option Z :=
  if String.eqb name "CRITICAL" then Some 50%Z
  else if String.eqb name "FATAL" then Some 50%Z
  else if String.eqb name "ERROR" then Some 40%Z
  else if String.eqb name "WARNING" then Some 30%Z
  else if String.eqb name "WARN" then Some 30%Z
  else if String.eqb name "INFO" then Some 20%Z
  else if String.eqb name "DEBUG" then Some 10%Z
  else if String.eqb name "NOTSET" then Some 0%Z
  else None.

Section Cli.

(** [templates.licenses.keys()]: the table of licenses lives in another
    module of the package. *)
Variable license_choices : list string.

(** The functions registered under the entry point [pyscaffold.cli], once
    loaded: each one is called with the parser and adds the options of an
    extension to it, or fails. They come from the installed distributions,
    not from [cli.py]. *)
Variable cli_extenders : list (argparse.ArgumentParser -> outcome argparse.ArgumentParser).

(** The collaborators of [list_actions] and [main], which live in other
    modules of the package: actions are opaque callables,
    [api.discover_actions] resolves the plan from the value of the
    [extensions] option and may do anything on the way, [get_id] names an
    action, [run_scaffold] builds the project. *)
Variable action : Type.
Variable discover_actions : value -> list effect * outcome (list action).
Variable get_id : action -> string.
Variable SPACING : string.
Variable create_project : gmap string value -> list effect * outcome unit.

Import argparse.

Definition store_true : action_kind := StoreConst (VBool true).

Definition add_default_args (parser : ArgumentParser) : ArgumentParser :=
  let parser := add_argument [] "project" Store None None parser in
  let parser := add_argument ["-p"; "--package"] "package" Store None None parser in
  let parser :=
    add_argument ["-d"; "--description"] "description" Store None None parser in
  let parser := add_argument ["-u"; "--url"] "url" Store None None parser in
  let parser :=
    add_argument ["-l"; "--license"] "license" Store (Some (VStr "none"))
      (Some license_choices) parser in
  let parser :=
    add_argument ["-f"; "--force"] "force" store_true (Some (VBool false)) None
      parser in
  let parser :=
    add_argument ["-U"; "--update"] "update" store_true (Some (VBool false)) None
      parser in
  let parser := add_mutually_exclusive_group parser in
  let parser :=
    group_add_argument ["--pretend"; "--dry-run"] "pretend" store_true
      (Some (VBool false)) None parser in
  let parser :=
    group_add_argument ["--list-actions"] "command"
      (StoreConst (VCommand CmdListActions)) None None parser in
  let parser := add_argument ["-v"; "--version"] "version" Version None None parser in
  add_argument ["-q"; "--quiet"] "log_level" (StoreConst (VStr "CRITICAL")) None
    None parser.

(** [for augment in ...: augment(parser)] *)
Fixpoint augment_all
    (augments : list (ArgumentParser -> outcome ArgumentParser))
    (parser : ArgumentParser) : outcome ArgumentParser :=
  match augments with
  | [] => Ok parser
  | augment :: rest => parser ← augment parser; augment_all rest parser
  end.

Definition cli_creators : list (ArgumentParser -> outcome ArgumentParser) :=
  [fun parser => Ok (add_default_args parser)].

(** The parser as [parse_args] has it before parsing. *)
Definition cli_parser : outcome ArgumentParser :=
  let parser :=
    set_defaults [("log_level", VStr "INFO"); ("extensions", VList []);
                  ("command", VCommand CmdRunScaffold)] new_parser in
  augment_all (cli_creators ++ cli_extenders) parser.

(** The parser as the first extender gets it. *)
Definition default_parser : ArgumentParser :=
  add_default_args
    (set_defaults [("log_level", VStr "INFO"); ("extensions", VList []);
                   ("command", VCommand CmdRunScaffold)] new_parser).

(** The actions of [default_parser], in the order [_actions] holds them. *)
Definition help_action : Action :=
  {| option_strings := ["-h"; "--help"]; dest := "help"; nargs := NargsZero;
     kind := Help; default := VStr SUPPRESS; choices := None;
     required := false |}.
Definition project_action : Action :=
  {| option_strings := []; dest := "project"; nargs := NargsOne;
     kind := Store; default := VNone; choices := None; required := true |}.
Definition package_action : Action :=
  {| option_strings := ["-p"; "--package"]; dest := "package";
     nargs := NargsOne; kind := Store; default := VNone; choices := None;
     required := false |}.
Definition description_action : Action :=
  {| option_strings := ["-d"; "--description"]; dest := "description";
     nargs := NargsOne; kind := Store; default := VNone; choices := None;
     required := false |}.
Definition url_action : Action :=
  {| option_strings := ["-u"; "--url"]; dest := "url"; nargs := NargsOne;
     kind := Store; default := VNone; choices := None; required := false |}.
Definition license_action : Action :=
  {| option_strings := ["-l"; "--license"]; dest := "license";
     nargs := NargsOne; kind := Store; default := VStr "none";
     choices := Some license_choices; required := false |}.
Definition force_action : Action :=
  {| option_strings := ["-f"; "--force"]; dest := "force"; nargs := NargsZero;
     kind := store_true; default := VBool false; choices := None;
     required := false |}.
Definition update_action : Action :=
  {| option_strings := ["-U"; "--update"]; dest := "update";
     nargs := NargsZero; kind := store_true; default := VBool false;
     choices := None; required := false |}.
Definition pretend_action : Action :=
  {| option_strings := ["--pretend"; "--dry-run"]; dest := "pretend";
     nargs := NargsZero; kind := store_true; default := VBool false;
     choices := None; required := false |}.
Definition list_actions_action : Action :=
  {| option_strings := ["--list-actions"]; dest := "command";
     nargs := NargsZero; kind := StoreConst (VCommand CmdListActions);
     default := VCommand CmdRunScaffold; choices := None;
     required := false |}.
Definition version_action : Action :=
  {| option_strings := ["-v"; "--version"]; dest := "version";
     nargs := NargsZero; kind := Version; default := VStr SUPPRESS;
     choices := None; required := false |}.
Definition quiet_action : Action :=
  {| option_strings := ["-q"; "--quiet"]; dest := "log_level";
     nargs := NargsZero; kind := StoreConst (VStr "CRITICAL");
     default := VStr "INFO"; choices := None; required := false |}.

(** The options that store the one value given to them. *)
Definition single_valued_options : list Action :=
  [package_action; description_action; url_action; license_action].

(** Lines 227 to 231: the argument list handed to the parser. *)
Definition with_profile (w : World) (args : list string) : list string :=
  let profile := getenv w "PYSCAFFOLD_PROFILE" in
  if bool_decide (profile <> Some "none") then
    let args_file := get_args_file w profile in
    if posixpath.exists_ w args_file
    then ("@" +:+ args_file) :: args
    else args
  else args.

(** [vars(parser.parse_args(args))] *)
Definition parsed_options (parser : ArgumentParser) (w : World)
    (args : list string) : outcome (gmap string value) :=
  argparse.parse_args parser w args.

(** Lines 237 to 244 on the dictionary [opts]. *)
Definition finish_options (opts : gmap string value)
    : outcome (gmap string value) :=
  match opts !! "project" with
  | Some (VStr project) =>
      let opts := <["project" := VStr (Str.rstrip posixpath.sep project)]> opts in
      match opts !! "log_level" with
      | Some (VStr name) =>
          match logging_getattr name with
          | Some level =>
              let opts := <["log_level" := VInt level]> opts in
              Ok (filter (fun kv : string * value => snd kv <> VNone) opts)
          | None => Raise AttributeError
          end
      | Some _ => Raise TypeError
      | None => Raise KeyError
      end
  | Some _ => Raise AttributeError
  | None => Raise KeyError
  end.

Definition parse_args (w : World) (args : list string)
    : outcome (gmap string value) :=
  if negb (setuptools_ok w) then Raise OldSetuptools
  else
    parser ← cli_parser;
    opts ← parsed_options parser w (with_profile w args);
    finish_options opts.

(** [parse_args] without lines 227 to 231: the explicit arguments are
    parsed alone, whatever the profile. *)
Definition parse_explicit_args (w : World) (args : list string)
    : outcome (gmap string value) :=
  if negb (setuptools_ok w) then Raise OldSetuptools
  else
    parser ← cli_parser;
    opts ← parsed_options parser w args;
    finish_options opts.

(** ** [cli.py]: the commands *)

(** [opts.get('extensions', [])] *)
Definition get_extensions (opts : gmap string value) : value :=
  match opts !! "extensions" with
  | Some v => v
  | None => VList []
  end.

Definition list_actions (opts : gmap string value) : list effect * outcome unit :=
  let '(resolving, actions) := discover_actions (get_extensions opts) in
  match actions with
  | Ok actions =>
      (resolving
         ++ Print ("Planned Actions:" +:+ String "010" "")
         :: map (fun a => Print (SPACING +:+ get_id a)) actions,
       Ok tt)
  | Exit status why => (resolving, Exit status why)
  | Raise e => (resolving, Raise e)
  end.

(** The note printed after an update, the version left as its placeholder. *)
Definition update_note : string :=
  "Update accomplished!" +:+ String "010" ""
  +:+ "Please check if your setup.cfg still complies with:" +:+ String "010" ""
  +:+ "http://pyscaffold.readthedocs.org/en/v{}/configuration.html".

(** [configure_logger] acts on the logging module only. *)
Definition run_scaffold (opts : gmap string value) : list effect * outcome unit :=
  let '(creating, r) := create_project opts in
  match r with
  | Ok _ =>
      match opts !! "update", opts !! "force" with
      | Some (VBool true), Some (VBool false) =>
          (creating ++ [Print update_note], Ok tt)
      | Some _, Some _ => (creating, Ok tt)
      | _, _ => (creating, Raise KeyError)
      end
  | _ => (creating, r)
  end.

Definition main (w : World) (args : list string) : list effect * outcome unit :=
  match parse_args w args with
  | Ok opts =>
      match opts !! "command" with
      | Some (VCommand CmdListActions) => list_actions opts
      | Some (VCommand CmdRunScaffold) => run_scaffold opts
      | Some _ => ([], Raise TypeError)
      | None => ([], Raise KeyError)
      end
  | Exit status why => ([], Exit status why)
  | Raise e => ([], Raise e)
  end.

End Cli.

(** ** Shapes of argument lines, used to state the tokenizer's properties *)

Module Line.

Fixpoint all (f : ascii -> bool) (s : string) : bool :=
  match s with
  | EmptyString => true
  | String c s' => f c && all f s'
  end.

(** A character with no special meaning to the lexer. *)
Definition plain (c : ascii) : bool :=
  negb (shlex.is_whitespace c || shlex.is_commenter c
        || shlex.is_escape c || shlex.is_quote c).

(** A character that stands for itself between two quotes [q]. *)
Definition plain_in_quote (q c : ascii) : bool :=
  negb (Ascii.eqb c q) && negb (shlex.is_escape c && shlex.is_escapedquote q).

(** One word of a line: written bare, or between quotes. *)
Inductive word :=
| Bare (text : string)
| Quoted (q : ascii) (body : string).

Definition valid (x : word) : bool :=
  match x with
  | Bare text => negb (String.eqb text "") && all plain text
  | Quoted q body => shlex.is_quote q && all (plain_in_quote q) body
  end.

Definition render (x : word) : string :=
  match x with
  | Bare text => text
  | Quoted q body => String q (body +:+ String q "")
  end.

Definition token_of (x : word) : string :=
  match x with
  | Bare text => text
  | Quoted _ body => body
  end.

(** Further words, each after one space, then the end of the line. *)
Fixpoint more_words (xs : list word) (tail : string) : string :=
  match xs with
  | [] => tail
  | x :: xs' => " " +:+ render x +:+ more_words xs' tail
  end.

(** Spaces, then nothing or a comment. *)
Definition comment_tail (spaces : nat) (comment : option string) : string :=
  Str.repeat_char " " spaces
  +:+ match comment with
      | Some text => String "#" text
      | None => ""
      end.

Definition no_newline (comment : option string) : bool :=
  match comment with
  | Some text => all (fun c => negb (shlex.is_newline c)) text
  | None => true
  end.

End Line.

(** The argument file of the example: two lines, the second with a
    trailing comment. *)
Definition example_args_file : string :=
  "--license mozilla" +:+ String "010" ""
  +:+ "--with-tox # comment" +:+ String "010" "".

(** ** One round of the parsing loop, apart from the state

    What a round of the loop in [argparse.consume] does with the argument
    strings does not depend on the state: it reads one or two strings and
    decides on a move, which is then applied to the state. *)

Module Loop.
Import argparse.

Inductive move :=
| MExtra (s : string)                          (* an unknown option string *)
| MPositional (s : string)                     (* an 'A' before an option *)
| MTake (tuples : list (Action * list string)) (* an option and the flags joined to it *).

Definition next_move (p : ArgumentParser) (toks : list ctoken)
    : outcome (move * list ctoken) :=
  match toks with
  | [] => Ok (MTake [], [])
  | (s, pat) :: rest =>
      match pat with
      | PatO (None, _, _) => Ok (MExtra s, rest)
      | PatO (Some a, option_string, explicit_arg) =>
          '(tuples, pending) ←
            match explicit_arg with
            | Some e => cluster p a option_string e
            | None => Ok ([], Some a)
            end;
          match pending with
          | None => Ok (MTake tuples, rest)
          | Some a' =>
              match nargs a' with
              | NargsZero => Ok (MTake (tuples ++ [(a', [])]), rest)
              | NargsOne =>
                  match rest with
                  | (v, PatA) :: rest' => Ok (MTake (tuples ++ [(a', [v])]), rest')
                  | _ => Exit 2 ExpectedOneArgument
                  end
              end
          end
      | _ => Ok (MPositional s, rest)
      end
  end.

Definition apply_move (p : ArgumentParser) (st : pstate) (m : move)
    : outcome pstate :=
  match m with
  | MExtra s => Ok (add_extras st [s])
  | MPositional s =>
      match positionals st with
      | a :: ps => take_action p (set_positionals st ps) a [s]
      | [] => Ok (add_extras st [s])
      end
  | MTake tuples => take_actions p st tuples
  end.

(** An option tuple names an action of the parser that has option
    strings. *)
Definition wf_action (p : ArgumentParser) (a : Action) : Prop :=
  a ∈ actions p /\ option_strings a <> [].

Definition wf_token (p : ArgumentParser) (t : ctoken) : Prop :=
  match snd t with
  | PatO (Some a, _, _) => wf_action p a
  | _ => True
  end.

(** What [_read_args_from_files] puts in place of one argument string,
    with [depth] nested calls left for the files it names. *)
Definition expand_arg (w : World) (depth : nat) (arg_string : string)
    : outcome (list string) :=
  match arg_string with
  | String "@" path =>
      match open_read w path with
      | None => Exit 2 CannotOpenFile
      | Some text =>
          toks ← convert_lines (Str.splitlines text);
          read_args_from_files w depth toks
      end
  | _ => Ok [arg_string]
  end.

(** The positionals still to be parsed are actions of the parser. *)
Definition pos_ok (p : ArgumentParser) (st : pstate) : Prop :=
  Forall (fun b => b ∈ actions p) (positionals st).

(** What the state says about one action: the value at its destination
    and whether it was seen. *)
Definition view (a : Action) (st : pstate) : option value * bool :=
  (namespace st !! dest a, bool_decide (a ∈ seen_actions st)).

(** Two runs over the same argument strings, from [st1] to [st1'] and from
    [st2] to [st2'], agree on the action [a]: either both took it last with
    the same arguments, or neither touched it. *)
Definition agree (a : Action) (st1 st2 st1' st2' : pstate) : Prop :=
  (view a st1' = view a st2' /\ a ∈ seen_actions st1')
  \/ (view a st1' = view a st1 /\ view a st2' = view a st2).

(** The positionals still to be parsed are actions of the parser other
    than [a]. *)
Definition pos_other (p : ArgumentParser) (a : Action) (st : pstate) : Prop :=
  Forall (fun b => b ∈ actions p /\ b <> a) (positionals st).

(** The argument string is read as the option [a]. *)
Definition supplies (a : Action) (toks : list ctoken) : Prop :=
  exists s option_string explicit_arg,
    (s, PatO (Some a, option_string, explicit_arg)) ∈ toks.

(** What [consume_optional] makes of an option string: the action tuples
    of the flags joined in it and the action, if any, whose arguments are
    the argument strings that follow. *)
Definition option_tuples (p : ArgumentParser) (tup : option_tuple)
    : outcome (list (Action * list string) * option Action) :=
  match tup with
  | (None, _, _) => Ok ([], None)
  | (Some a, option_string, Some e) => cluster p a option_string e
  | (Some a, _, None) => Ok ([], Some a)
  end.

(** The actions an option string stands for: its own and, for flags
    joined in one string, those of the others. *)
Definition option_actions (p : ArgumentParser) (tup : option_tuple)
    : list Action :=
  match option_tuples p tup with
  | Ok (tuples, pending) =>
      map fst tuples ++ match pending with Some a => [a] | None => [] end
  | _ => []
  end.

(** The option string takes the argument string that follows it as its
    argument. *)
Definition takes_argument (p : ArgumentParser) (tup : option_tuple) : bool :=
  match option_tuples p tup with
  | Ok (_, Some a) =>
      match nargs a with NargsOne => true | NargsZero => false end
  | _ => false
  end.

(** The argument strings given for the positionals, in order: those that
    are neither an option string, nor the argument of one, nor the [--]. *)
Fixpoint positional_arguments (p : ArgumentParser) (toks : list ctoken)
    : list string :=
  match toks with
  | [] => []
  | (s, PatA) :: rest => s :: positional_arguments p rest
  | (_, PatDash) :: rest => positional_arguments p rest
  | (_, PatO tup) :: rest =>
      if takes_argument p tup then
        match rest with
        | (_, PatA) :: rest' => positional_arguments p rest'
        | _ => positional_arguments p rest
        end
      else positional_arguments p rest
  end.

(** The pattern letters [classify] gives: the [--] that is read as such is
    the first one, and no option string follows it. *)
Fixpoint well_classified (toks : list ctoken) : bool :=
  match toks with
  | [] => true
  | (s, PatA) :: rest => negb (String.eqb s "--") && well_classified rest
  | (s, PatO _) :: rest => negb (String.eqb s "--") && well_classified rest
  | (s, PatDash) :: rest => String.eqb s "--" && negb (has_option rest)
  end.

(** The extenders added actions of their own to [core]: the actions and
    the exclusive groups of [core] are still there, in front, and no new
    action writes to the destination of an action of [core]. *)
Definition extends (core p : ArgumentParser) : Prop :=
  exists new groups,
    actions p = actions core ++ new
    /\ mutually_exclusive_groups p = mutually_exclusive_groups core ++ groups
    /\ Forall (fun b => dest b ∉ map dest (actions core)) new.

End Loop.

(** The value of a key in the record a call returned. *)
Definition returned_value (k : string) (m : outcome (gmap string value))
    : option value :=
  match m with
  | Ok r => r !! k
  | _ => None
  end.

(** ** Sample environments *)

Definition sample_licenses : list string := ["none"; "mozilla"; "gpl3"].

(** An extender of the kind the extensions of the package register: one
    flag that appends the extension to the list of the [extensions]
    option. *)
Definition flag_extender (flag name : string)
    (parser : argparse.ArgumentParser) : outcome argparse.ArgumentParser :=
  Ok (argparse.add_argument [flag] "extensions"
        (argparse.AppendConst (VObject name)) None None parser).

Definition sample_extenders
    : list (argparse.ArgumentParser -> outcome argparse.ArgumentParser) :=
  [flag_extender "--with-tox" "tox";
   flag_extender "--with-pre-commit" "pre_commit";
   flag_extender "--with-travis" "travis"].

(** A user with a home directory, [~/.config] and nothing else. *)
Definition home_fs (path : string) : option node :=
  if String.eqb path "/home/user" then Some Dir
  else if String.eqb path "/home/user/.config" then Some Dir
  else None.

(** The same with [default.args] and [none.args] in the configuration
    directory. *)
Definition profile_fs (path : string) : option node :=
  if String.eqb path "/home/user/.config/pyscaffold/default.args"
  then Some (File example_args_file)
  else if String.eqb path "/home/user/.config/pyscaffold/none.args"
  then Some (File example_args_file)
  else home_fs path.

Definition sample_world (env : gmap string string)
    (files : string -> option node) : World :=
  {| environ := env; fs := files; pw_dir := Some "/home/user";
     getpwnam := fun _ => None; setuptools_ok := true;
     recursion_limit := 1000 |}.

(** No profile variable, no profile file. *)
Definition plain_world : World :=
  sample_world {[ "HOME" := "/home/user" ]} home_fs.

(** No profile variable, [default.args] present. *)
Definition default_profile_world : World :=
  sample_world {[ "HOME" := "/home/user" ]} profile_fs.

(** A profile file that ends with [--]. *)
Definition dash_args_file : string :=
  "--license mozilla" +:+ String "010" "" +:+ "--" +:+ String "010" "".

Definition dash_profile_fs (path : string) : option node :=
  if String.eqb path "/home/user/.config/pyscaffold/default.args"
  then Some (File dash_args_file)
  else home_fs path.

(** No profile variable, a [default.args] that ends with [--]. *)
Definition dash_profile_world : World :=
  sample_world {[ "HOME" := "/home/user" ]} dash_profile_fs.

(** The profile variable set to [none], profile files present. *)
Definition no_profile_world : World :=
  sample_world {[ "HOME" := "/home/user"; "PYSCAFFOLD_PROFILE" := "none" ]}
    profile_fs.

(** * Properties *)

(** ** Facts about strings *)

Lemma append_cons (c : ascii) (s t : string) :
  String c s +:+ t = String c (s +:+ t).
Proof. reflexivity. Qed.

Lemma append_nil_l (s : string) : "" +:+ s = s.
Proof. reflexivity. Qed.

Lemma append_nil_r (s : string) : s +:+ "" = s.
Proof.
  induction s as [|c s IH]; [reflexivity|].
  now rewrite append_cons, IH.
Qed.

Lemma append_assoc (s t u : string) : (s +:+ t) +:+ u = s +:+ (t +:+ u).
Proof.
  induction s as [|c s IH]; [reflexivity|].
  now rewrite !append_cons, IH.
Qed.

(** ** The configuration directory (C4) *)

Lemma first_existing_found (w : World) (before : list string) (c : string)
    (after : list string) (fallback : string) :
  Forall (fun x => posixpath.exists_ w x = false) before ->
  posixpath.exists_ w c = true ->
  first_existing w (before ++ c :: after) fallback
  = posixpath.join c "pyscaffold".
Proof.
  induction 1 as [|x before Hx _ IH]; intros Hc; simpl.
  - now rewrite Hc.
  - rewrite Hx. now apply IH.
Qed.

Lemma first_existing_none (w : World) (candidates : list string)
    (fallback : string) :
  Forall (fun x => posixpath.exists_ w x = false) candidates ->
  first_existing w candidates fallback = fallback.
Proof.
  induction 1 as [|x l Hx _ IH]; simpl; [reflexivity|].
  now rewrite Hx.
Qed.

(** The four candidates, with each variable looked up in the environment
    and left as written when it is not set. *)
Lemma config_candidates_expanded (w : World) :
  config_candidates w
  = [ posixpath.subst_var w "${HOME}" "HOME" +:+ "/Library/Application Support";
      posixpath.subst_var w "${APPDATA}" "APPDATA";
      posixpath.subst_var w "${XDG_CONFIG_HOME}" "XDG_CONFIG_HOME";
      posixpath.subst_var w "${HOME}" "HOME" +:+ "/.config" ].
Proof.
  assert (H1 : posixpath.expandvars w OSX_CONFIG
               = posixpath.subst_var w "${HOME}" "HOME"
                 +:+ "/Library/Application Support") by reflexivity.
  assert (H2 : posixpath.expandvars w WIN_CONFIG
               = posixpath.subst_var w "${APPDATA}" "APPDATA" +:+ "")
    by reflexivity.
  assert (H3 : posixpath.expandvars w XDG_CONFIG
               = posixpath.subst_var w "${XDG_CONFIG_HOME}" "XDG_CONFIG_HOME"
                 +:+ "") by reflexivity.
  assert (H4 : posixpath.expandvars w UNIX_CONFIG
               = posixpath.subst_var w "${HOME}" "HOME" +:+ "/.config")
    by reflexivity.
  unfold config_candidates. cbn [map].
  now rewrite H1, H2, H3, H4, !append_nil_r.
Qed.

(** C4: [get_config_dir] tries the application-support path, then
    [$APPDATA], [$XDG_CONFIG_HOME] and [$HOME/.config], in this order, and
    returns the first one that exists with [pyscaffold] appended; when none
    exists it returns the expansion of [~/.pyscaffold]. *)
Theorem get_config_dir_first_existing (w : World) :
  config_candidates w
  = map (posixpath.expandvars w)
        ["${HOME}/Library/Application Support"; "${APPDATA}";
         "${XDG_CONFIG_HOME}"; "${HOME}/.config"]
  /\ (forall before c after,
        config_candidates w = before ++ c :: after ->
        Forall (fun x => posixpath.exists_ w x = false) before ->
        posixpath.exists_ w c = true ->
        get_config_dir w = posixpath.join c "pyscaffold")
  /\ (Forall (fun x => posixpath.exists_ w x = false) (config_candidates w) ->
      get_config_dir w = posixpath.expanduser w "~/.pyscaffold").
Proof.
  split; [reflexivity|]. split.
  - intros before c after Hsplit Hbefore Hc. unfold get_config_dir.
    rewrite Hsplit. now apply first_existing_found.
  - intros Hnone. unfold get_config_dir.
    now rewrite first_existing_none.
Qed.

(** With [HOME] set, the fallback is the dot-directory under it. *)
Lemma expanduser_dot_pyscaffold (w : World) (home : string) :
  getenv w "HOME" = Some home ->
  posixpath.expanduser w "~/.pyscaffold"
  = Str.rstrip "/" home +:+ "/.pyscaffold".
Proof.
  intros Hhome.
  unfold posixpath.expanduser. cbn -[Str.rstrip getenv].
  rewrite Hhome. unfold posixpath.sep.
  destruct (Str.rstrip "/" home) eqn:E; reflexivity.
Qed.

(** ** Tokens of an argument line (C3) *)

Lemma lex_in_quote (q : ascii) (body rest token : string) (quoted : bool) :
  Line.all (Line.plain_in_quote q) body = true ->
  shlex.lex (shlex.InQuote q) token quoted (body +:+ String q rest)
  = shlex.lex shlex.InWord (token +:+ body) true rest.
Proof.
  revert token quoted.
  induction body as [|c body IH]; intros token quoted Hbody.
  - rewrite append_nil_l, append_nil_r. simpl. now rewrite Ascii.eqb_refl.
  - simpl in Hbody. apply andb_prop in Hbody as [Hc Hbody].
    unfold Line.plain_in_quote in Hc. apply andb_prop in Hc as [Hq He].
    rewrite append_cons. simpl.
    apply negb_true_iff in Hq, He. rewrite Hq, He.
    rewrite IH by assumption. unfold shlex.snoc.
    now rewrite append_assoc.
Qed.

Lemma lex_in_word (body rest token : string) (quoted : bool) :
  Line.all Line.plain body = true ->
  shlex.lex shlex.InWord token quoted (body +:+ rest)
  = shlex.lex shlex.InWord (token +:+ body) quoted rest.
Proof.
  revert token.
  induction body as [|c body IH]; intros token Hbody.
  - now rewrite append_nil_l, append_nil_r.
  - simpl in Hbody. apply andb_prop in Hbody as [Hc Hbody].
    unfold Line.plain in Hc. apply negb_true_iff in Hc.
    apply orb_false_elim in Hc as [Hc Hquote].
    apply orb_false_elim in Hc as [Hc Hesc].
    apply orb_false_elim in Hc as [Hws Hcom].
    rewrite append_cons. simpl. rewrite Hws, Hcom, Hquote, Hesc.
    rewrite IH by assumption. unfold shlex.snoc.
    now rewrite append_assoc.
Qed.

Lemma lex_comment_to_end (token text : string) (quoted : bool) :
  Line.all (fun c => negb (shlex.is_newline c)) text = true ->
  shlex.lex shlex.InComment token quoted text = shlex.finish token quoted.
Proof.
  induction text as [|c text IH]; intros Htext; [reflexivity|].
  simpl in Htext. apply andb_prop in Htext as [Hc Htext].
  apply negb_true_iff in Hc. simpl. rewrite Hc. now apply IH.
Qed.

(** What follows the words of a line yields no token. *)
Lemma lex_comment_tail (spaces : nat) (comment : option string) :
  Line.no_newline comment = true ->
  shlex.lex shlex.InWhitespace "" false (Line.comment_tail spaces comment)
  = Ok [].
Proof.
  intros Hc. unfold Line.comment_tail, Str.repeat_char.
  induction spaces as [|n IH]; simpl.
  - rewrite append_nil_l. destruct comment as [text|]; [|reflexivity].
    simpl. now rewrite lex_comment_to_end.
  - exact IH.
Qed.

(** A token under way is emitted by the end of the line, by white space
    and by a comment sign alike. *)
Lemma lex_word_ends (token t : string) (quoted : bool) :
  shlex.has_token token quoted = true ->
  (t = "" \/ exists c t', t = String c t'
                         /\ (shlex.is_whitespace c || shlex.is_commenter c) = true) ->
  shlex.lex shlex.InWord token quoted t
  = (rest ← shlex.lex shlex.InWhitespace "" false t; Ok (token :: rest)).
Proof.
  intros Htok [->|(c & t' & -> & Hc)].
  - simpl. unfold shlex.finish. now rewrite Htok.
  - simpl. rewrite Htok.
    destruct (shlex.is_whitespace c) eqn:Hws; [reflexivity|].
    simpl in Hc. now rewrite Hc.
Qed.

Lemma quote_is_not_special (q : ascii) :
  shlex.is_quote q = true ->
  shlex.is_whitespace q = false /\ shlex.is_commenter q = false
  /\ shlex.is_escape q = false.
Proof.
  unfold shlex.is_quote. intros Hq. apply orb_prop in Hq as [Hq|Hq];
    apply Ascii.eqb_eq in Hq; subst q; repeat split; reflexivity.
Qed.

Lemma lex_one_word (x : Line.word) (t : string) :
  Line.valid x = true ->
  (t = "" \/ exists c t', t = String c t'
                         /\ (shlex.is_whitespace c || shlex.is_commenter c) = true) ->
  shlex.lex shlex.InWhitespace "" false (Line.render x +:+ t)
  = (rest ← shlex.lex shlex.InWhitespace "" false t;
     Ok (Line.token_of x :: rest)).
Proof.
  intros Hx Ht. destruct x as [text|q body]; simpl in Hx;
    apply andb_prop in Hx as [H1 H2].
  - destruct text as [|c text]; [discriminate|].
    simpl in H2. apply andb_prop in H2 as [Hc Htext].
    unfold Line.plain in Hc. apply negb_true_iff in Hc.
    apply orb_false_elim in Hc as [Hc Hquote].
    apply orb_false_elim in Hc as [Hc Hesc].
    apply orb_false_elim in Hc as [Hws Hcom].
    cbn [Line.render Line.token_of]. rewrite append_cons. simpl.
    rewrite Hws, Hcom, Hquote, Hesc.
    rewrite lex_in_word by assumption. rewrite append_cons, append_nil_l.
    now apply lex_word_ends.
  - destruct (quote_is_not_special q H1) as (Hws & Hcom & Hesc).
    cbn [Line.render Line.token_of]. rewrite append_cons. simpl.
    rewrite Hws, Hcom, Hesc, H1.
    rewrite append_assoc, append_cons, append_nil_l.
    rewrite lex_in_quote by assumption. rewrite append_nil_l.
    apply lex_word_ends; [|assumption].
    unfold shlex.has_token. apply orb_true_r.
Qed.

Lemma more_words_ends (xs : list Line.word) (spaces : nat)
    (comment : option string) :
  let t := Line.more_words xs (Line.comment_tail spaces comment) in
  t = "" \/ exists c t', t = String c t'
                        /\ (shlex.is_whitespace c || shlex.is_commenter c) = true.
Proof.
  destruct xs as [|x xs]; simpl.
  - unfold Line.comment_tail, Str.repeat_char.
    destruct spaces as [|n]; simpl.
    + destruct comment as [text|]; [right|left; reflexivity].
      exists "#"%char, text. split; reflexivity.
    + right. eexists _, _. split; [apply append_cons|reflexivity].
  - right. eexists _, _. split; [apply append_cons|reflexivity].
Qed.

Lemma lex_more_words (xs : list Line.word) (spaces : nat)
    (comment : option string) :
  forallb Line.valid xs = true ->
  Line.no_newline comment = true ->
  shlex.lex shlex.InWhitespace "" false
    (Line.more_words xs (Line.comment_tail spaces comment))
  = Ok (map Line.token_of xs).
Proof.
  intros Hxs Hc. induction xs as [|x xs IH].
  - now apply lex_comment_tail.
  - simpl in Hxs. apply andb_prop in Hxs as [Hx Hxs].
    cbn [Line.more_words]. rewrite append_cons, append_nil_l. simpl.
    rewrite lex_one_word by (assumption || apply more_words_ends).
    now rewrite IH.
Qed.

(** An [@file] argument is replaced by the tokens of the lines of the
    file, when none of them is a file reference itself. *)
Lemma file_reference_expands (w : World) (path text : string)
    (toks : list string) (depth : nat) :
  open_read w path = Some text ->
  argparse.convert_lines (Str.splitlines text) = Ok toks ->
  forallb (fun t => negb (Str.startswith t "@")) toks = true ->
  argparse.read_args_from_files w (S (S depth)) [String "@" path] = Ok toks.
Proof.
  intros Hopen Hconv Hplain. simpl. rewrite Hopen, Hconv. simpl.
  assert (Hsame :
    (fix each (l : list string) : outcome (list string) :=
       match l with
       | [] => Ok []
       | arg_string :: l' =>
           match arg_string with
           | String "@" path0 =>
               match open_read w path0 with
               | None => Exit 2 CannotOpenFile
               | Some text0 =>
                   toks0 ← argparse.convert_lines (Str.splitlines text0);
                   expanded ← argparse.read_args_from_files w depth toks0;
                   more ← each l';
                   Ok (expanded ++ more)
               end
           | _ => more ← each l'; Ok (arg_string :: more)
           end
       end) toks = Ok toks).
  { clear Hconv. induction toks as [|t toks IH]; [reflexivity|].
    simpl in Hplain. apply andb_prop in Hplain as [Ht Hplain].
    rewrite IH by assumption.
    destruct t as [|c t]; [reflexivity|].
    destruct (Ascii.ascii_dec c "@") as [->|Hne];
      [simpl in Ht; discriminate|].
    destruct c as [[] [] [] [] [] [] [] []]; try reflexivity.
    now contradiction Hne. }
  rewrite Hsame. simpl. now rewrite app_nil_r.
Qed.


(** ** The parsing loop, for any parser *)

Section LoopFacts.
Import argparse Loop.
Variable p : ArgumentParser.

Lemma bind_ok {A B} (m : outcome A) (k : A -> outcome B) (b : B) :
  m ≫= k = Ok b -> exists a, m = Ok a /\ k a = Ok b.
Proof. destruct m as [a| |]; simpl; intros H; [eauto|discriminate..]. Qed.

Lemma consume_unfold (st : pstate) (toks : list ctoken) :
  consume p st toks
  = if has_option toks
    then '(m, rest) ← next_move p toks;
         st' ← apply_move p st m;
         consume p st' rest
    else consume_trailing p st toks.
Proof.
  destruct toks as [|[s pat] rest]; [reflexivity|].
  cbn [consume]. destruct (has_option _); [|reflexivity].
  destruct pat as [|[[[a|] option_string] explicit_arg]|]; cbn [next_move].
  - simpl. destruct (positionals st); reflexivity.
  - destruct (match explicit_arg with
              | Some e => cluster p a option_string e
              | None => Ok ([], Some a)
              end) as [[tuples [a'|]]| |]; simpl; try reflexivity.
    destruct (nargs a'); simpl; [|reflexivity].
    destruct rest as [|[v [| |]] rest']; reflexivity.
  - reflexivity.
  - simpl. destruct (positionals st); reflexivity.
Qed.

Lemma next_move_shorter (toks rest : list ctoken) (m : move) :
  has_option toks = true ->
  next_move p toks = Ok (m, rest) ->
  length rest < length toks.
Proof.
  destruct toks as [|[s pat] toks]; [discriminate|]. intros _ H.
  cbn [next_move] in H.
  destruct pat as [|[[[a|] option_string] explicit_arg]|];
    try (injection H as _ <-; simpl; lia).
  apply bind_ok in H as ([tuples pending] & _ & H).
  destruct pending as [a'|]; [|injection H as _ <-; simpl; lia].
  destruct (nargs a'); [|injection H as _ <-; simpl; lia].
  destruct toks as [|[v [| |]] rest']; try discriminate.
  injection H as _ <-. simpl. lia.
Qed.

(** *** What [take_action] does to the state *)

Lemma take_action_ok (st st' : pstate) (b : Action) (args : list string) :
  take_action p st b args = Ok st' ->
  exists v stored,
    get_values b args = Ok v
    /\ (kind b = Store /\ stored = v \/ kind b = StoreConst stored
        \/ exists c, kind b = AppendConst c
                     /\ append_item (namespace st !! dest b) c = Ok stored)
    /\ namespace st' = <[dest b := stored]> (namespace st)
    /\ seen_actions st' = b :: seen_actions st
    /\ seen_non_default_actions st' = b :: seen_non_default_actions st
    /\ positionals st' = positionals st
    /\ extras st' = extras st
    /\ forall c, c ∈ action_conflicts p b ->
                 c ∉ b :: seen_non_default_actions st.
Proof.
  unfold take_action. intros H.
  apply bind_ok in H as (v & Hv & H).
  destruct (existsb _ _) eqn:Hconf; [discriminate|].
  assert (Hc : forall c, c ∈ action_conflicts p b ->
                         c ∉ b :: seen_non_default_actions st).
  { intros c Hin Hseen.
    assert (existsb (fun c => bool_decide
              (c ∈ seen_non_default_actions
                     (mark_seen_non_default (mark_seen st b) b)))
              (action_conflicts p b) = true) as Hex.
    { apply existsb_exists. exists c. split.
      - now apply list_elem_of_In.
      - apply bool_decide_eq_true. exact Hseen. }
    simpl in Hex, Hconf. congruence. }
  unfold call_action in H.
  destruct (kind b) as [|c|c| |] eqn:Hk; try discriminate.
  - injection H as <-. exists v, v. simpl. repeat split; auto.
  - injection H as <-. exists v, c. simpl. repeat split; auto.
  - apply bind_ok in H as (items & Hitems & H). injection H as <-.
    exists v, items. simpl in *. repeat split; eauto.
Qed.

(** *** Option tuples name actions of the parser *)

Lemma assoc_elem_of {V} (k : string) (l : list (string * V)) (v : V) :
  assoc k l = Some v -> (k, v) ∈ l.
Proof.
  unfold assoc. induction l as [|[k' v'] l IH]; simpl; [discriminate|].
  destruct (String.eqb k' k) eqn:E; simpl.
  - intros [= <-]. apply String.eqb_eq in E as ->. left.
  - intros H. right. now apply IH.
Qed.

Lemma option_string_actions_wf (o : string) (a : Action) :
  (o, a) ∈ option_string_actions p -> wf_action p a.
Proof.
  unfold option_string_actions. rewrite list_elem_of_In, in_flat_map.
  intros (a' & Ha' & Hin). apply in_map_iff in Hin as (o' & [= <- <-] & Ho).
  split; [now apply list_elem_of_In|]. intros E. now rewrite E in Ho.
Qed.

Lemma lookup_option_wf (o : string) (a : Action) :
  lookup_option p o = Some a -> wf_action p a.
Proof.
  intros H. apply assoc_elem_of in H. now apply option_string_actions_wf in H.
Qed.

Lemma get_option_tuples_wf (s o : string) (a : Action) (e : option string) :
  (Some a, o, e) ∈ get_option_tuples p s -> wf_action p a.
Proof.
  unfold get_option_tuples.
  destruct (second_is_prefix_char s).
  - destruct (match Str.split_once "=" s with
              | Some (o0, e0) => (o0, Some e0)
              | None => (s, None)
              end) as [option_prefix explicit_arg].
    rewrite list_elem_of_omap. intros ([o' a'] & Hin & H). simpl in H.
    destruct (Str.startswith o' option_prefix); [|discriminate].
    injection H as <- <- <-. now apply option_string_actions_wf in Hin.
  - rewrite list_elem_of_omap. intros ([o' a'] & Hin & H). simpl in H.
    destruct (String.eqb o' _).
    + injection H as <- <- <-. now apply option_string_actions_wf in Hin.
    + destruct (Str.startswith o' s); [|discriminate].
      injection H as <- <- <-. now apply option_string_actions_wf in Hin.
Qed.

Lemma parse_optional_wf (s o : string) (a : Action) (e : option string) :
  parse_optional p s = Ok (Some (Some a, o, e)) -> wf_action p a.
Proof.
  unfold parse_optional. destruct s as [|c tail]; [discriminate|].
  destruct (negb (Ascii.eqb c "-")); [discriminate|].
  destruct (lookup_option p (String c tail)) as [a0|] eqn:Hl.
  { intros [= <- <- <-]. now apply lookup_option_wf in Hl. }
  destruct (String.eqb tail ""); [discriminate|].
  destruct (Str.split_once "=" (String c tail)) as [[o0 e0]|].
  - destruct (lookup_option p o0) as [a0|] eqn:Hl0.
    { intros [= <- <- <-]. now apply lookup_option_wf in Hl0. }
    destruct (get_option_tuples p (String c tail)) as [|t [|t' l]] eqn:Ht.
    + destruct (_ && _); [discriminate|]. destruct (Str.mem _ _); discriminate.
    + intros [= ->]. apply get_option_tuples_wf with (s := String c tail) (o := o) (e := e).
      rewrite Ht. left.
    + discriminate.
  - destruct (get_option_tuples p (String c tail)) as [|t [|t' l]] eqn:Ht.
    + destruct (_ && _); [discriminate|]. destruct (Str.mem _ _); discriminate.
    + intros [= ->]. apply get_option_tuples_wf with (s := String c tail) (o := o) (e := e).
      rewrite Ht. left.
    + discriminate.
Qed.

Lemma classify_wf (args : list string) (toks : list ctoken) :
  classify p args = Ok toks -> Forall (wf_token p) toks.
Proof.
  revert toks. induction args as [|s args IH]; intros toks; simpl.
  - intros [= <-]. constructor.
  - destruct (String.eqb s "--").
    + intros [= <-]. constructor; [exact I|].
      apply Forall_forall. intros t Ht. apply list_elem_of_In in Ht.
      apply in_map_iff in Ht as (x & <- & _). exact I.
    + intros H. apply bind_ok in H as (tup & Htup & H).
      apply bind_ok in H as (more & Hmore & [= <-]).
      constructor; [|now apply IH].
      unfold wf_token. simpl. destruct tup as [[[[a|] o] e]|]; try exact I.
      now apply parse_optional_wf in Htup.
Qed.

Lemma cluster_wf (a : Action) (o e : string)
    (tuples : list (Action * list string)) (pending : option Action) :
  wf_action p a ->
  cluster p a o e = Ok (tuples, pending) ->
  Forall (fun t => wf_action p (fst t)) tuples
  /\ (forall a', pending = Some a' -> wf_action p a').
Proof.
  revert a o tuples pending.
  induction e as [|c e IH]; intros a o tuples pending Ha; simpl.
  - destruct (nargs a); [|destruct (second_is_prefix_char o); discriminate].
    intros [= <- <-]. split; [|discriminate]. repeat (constructor; [assumption|]); constructor.
  - destruct (nargs a).
    { intros [= <- <-]. split; [|discriminate]. repeat (constructor; [assumption|]); constructor. }
    destruct (second_is_prefix_char o); [discriminate|].
    destruct (lookup_option p (String "-" (String c ""))) as [a'|] eqn:Hl;
      [|discriminate].
    apply lookup_option_wf in Hl.
    destruct (String.eqb e "").
    + intros [= <- <-]. split; [repeat (constructor; [assumption|]); constructor|].
      now intros a'' [= <-].
    + intros H. apply bind_ok in H as ([tuples' pending'] & Hc & [= <- <-]).
      destruct (IH _ _ _ _ Hl Hc) as [H1 H2]. split; [|exact H2].
      constructor; [exact Ha|exact H1].
Qed.

Lemma next_move_wf (toks rest : list ctoken) (m : move) :
  Forall (wf_token p) toks ->
  next_move p toks = Ok (m, rest) ->
  Forall (wf_token p) rest
  /\ (forall tuples, m = MTake tuples ->
                     Forall (fun t => wf_action p (fst t)) tuples).
Proof.
  destruct toks as [|[s pat] toks]; simpl.
  { intros _ [= <- <-]. split; [constructor|]. intros ? [= <-]. constructor. }
  intros Hwf H. apply Forall_cons in Hwf as [Hhead Hwf].
  destruct pat as [|[[[a|] option_string] explicit_arg]|];
    try (injection H as <- <-; split; [assumption|discriminate]).
  unfold wf_token in Hhead. simpl in Hhead.
  apply bind_ok in H as ([tuples pending] & Hc & H).
  assert (Forall (fun t => wf_action p (fst t)) tuples
          /\ (forall a', pending = Some a' -> wf_action p a')) as [Ht Hp].
  { destruct explicit_arg as [e|].
    - now apply cluster_wf in Hc.
    - injection Hc as <- <-. split; [constructor|]. now intros a' [= <-]. }
  destruct pending as [a'|].
  - specialize (Hp a' eq_refl). destruct (nargs a').
    + destruct toks as [|[v [| |]] rest']; try discriminate.
      injection H as <- <-. apply Forall_cons in Hwf as [_ Hwf].
      split; [assumption|]. intros ? [= <-].
      apply Forall_app. split; [assumption|]. repeat (constructor; [assumption|]); constructor.
    + injection H as <- <-. split; [assumption|]. intros ? [= <-].
      apply Forall_app. split; [assumption|]. repeat (constructor; [assumption|]); constructor.
  - injection H as <- <-. split; [assumption|]. now intros ? [= <-].
Qed.

(** *** The last call of [consume_positionals] *)

Lemma consume_trailing_cases (st st' : pstate) (toks : list ctoken) :
  consume_trailing p st toks = Ok st' ->
  st' = add_extras st (map fst toks)
  \/ exists a ps args rest st1,
       positionals st = a :: ps
       /\ take_action p (set_positionals st ps) a args = Ok st1
       /\ consume_trailing p st1 rest = Ok st'
       /\ ((exists x d, toks = (x, PatA) :: (d, PatDash) :: rest /\ args = [x; d])
           \/ (exists x, toks = (x, PatA) :: rest /\ args = [x])
           \/ (exists d y, toks = (d, PatDash) :: (y, PatA) :: rest
                           /\ args = [d; y])).
Proof.
  destruct toks as [|[x pat] toks]; simpl.
  { destruct (positionals st); intros [= <-]; now left. }
  destruct (positionals st) as [|a ps] eqn:Hpos; [intros [= <-]; now left|].
  destruct pat as [| |].
  - destruct toks as [|[d [| |]] rest]; intros H;
      apply bind_ok in H as (st1 & Htake & Hrest); right;
      exists a, ps; eexists _, _, st1;
      (split; [reflexivity|]); (split; [exact Htake|]);
      (split; [exact Hrest|]); eauto 10.
  - intros [= <-]. now left.
  - destruct toks as [|[y [| |]] rest]; try (intros [= <-]; now left).
    intros H. apply bind_ok in H as (st1 & Htake & Hrest). right.
    exists a, ps, [x; y], rest, st1. eauto 10.
Qed.

(** *** Invariants of the loop *)

Section Invariant.
Variable Inv : pstate -> Prop.
Hypothesis Inv_extras : forall st l, Inv st -> Inv (add_extras st l).
Hypothesis Inv_positionals : forall st ps, Inv st -> Inv (set_positionals st ps).
Hypothesis Inv_take : forall st st' b args,
  b ∈ actions p -> Inv st -> take_action p st b args = Ok st' -> Inv st'.

Lemma take_action_invariant (st st' : pstate) (b : Action) (args : list string) :
  b ∈ actions p -> pos_ok p st -> Inv st ->
  take_action p st b args = Ok st' ->
  pos_ok p st' /\ Inv st'.
Proof.
  intros Hb Hpos HI H. split; [|eauto].
  apply take_action_ok in H as (_ & _ & _ & _ & _ & _ & _ & E & _).
  unfold pos_ok. now rewrite E.
Qed.

Lemma take_actions_invariant (tuples : list (Action * list string))
    (st st' : pstate) :
  Forall (fun t => wf_action p (fst t)) tuples ->
  pos_ok p st -> Inv st ->
  take_actions p st tuples = Ok st' ->
  pos_ok p st' /\ Inv st'.
Proof.
  intros Hwf. revert st. induction Hwf as [|[b args] tuples [Hb _] _ IH];
    intros st Hpos HI; simpl.
  - intros [= <-]. now split.
  - intros H. apply bind_ok in H as (st1 & H1 & H).
    destruct (take_action_invariant _ _ _ _ Hb Hpos HI H1). eauto.
Qed.

Lemma take_positional_invariant (st st' : pstate) (a : Action)
    (ps : list Action) (args : list string) :
  positionals st = a :: ps -> pos_ok p st -> Inv st ->
  take_action p (set_positionals st ps) a args = Ok st' ->
  pos_ok p st' /\ Inv st'.
Proof.
  intros E Hpos HI H. unfold pos_ok in Hpos. rewrite E in Hpos.
  apply Forall_cons in Hpos as [Ha Hps].
  apply take_action_invariant in H; auto.
Qed.

Lemma apply_move_invariant (st st' : pstate) (m : move) :
  (forall tuples, m = MTake tuples ->
                  Forall (fun t => wf_action p (fst t)) tuples) ->
  pos_ok p st -> Inv st ->
  apply_move p st m = Ok st' ->
  pos_ok p st' /\ Inv st'.
Proof.
  intros Hwf Hpos HI. destruct m as [s|s|tuples]; simpl.
  - intros [= <-]. split; [exact Hpos|auto].
  - destruct (positionals st) as [|a ps] eqn:E.
    + intros [= <-]. split; [exact Hpos|auto].
    + now apply take_positional_invariant.
  - apply take_actions_invariant; auto.
Qed.

Lemma consume_trailing_invariant (toks : list ctoken) (st st' : pstate) :
  pos_ok p st -> Inv st ->
  consume_trailing p st toks = Ok st' ->
  pos_ok p st' /\ Inv st'.
Proof.
  remember (length toks) as n eqn:Hn. revert toks Hn st.
  induction n as [n IH] using lt_wf_ind. intros toks -> st Hpos HI H.
  apply consume_trailing_cases in H
    as [->|(a & ps & args & rest & st1 & E & Htake & Hrest & Hshape)].
  - split; [exact Hpos|auto].
  - destruct (take_positional_invariant _ _ _ _ _ E Hpos HI Htake) as [Hpos1 HI1].
    apply (IH (length rest)) with (toks := rest) (st := st1); auto.
    destruct Hshape as [(x & d & -> & _)|[(x & -> & _)|(d & y & -> & _)]];
      simpl; lia.
Qed.

Lemma consume_invariant (toks : list ctoken) (st st' : pstate) :
  Forall (wf_token p) toks ->
  pos_ok p st -> Inv st ->
  consume p st toks = Ok st' ->
  pos_ok p st' /\ Inv st'.
Proof.
  remember (length toks) as n eqn:Hn. revert toks Hn st.
  induction n as [n IH] using lt_wf_ind. intros toks -> st Hwf Hpos HI.
  rewrite consume_unfold. destruct (has_option toks) eqn:Hopt.
  - intros H. apply bind_ok in H as ([m rest] & Hmove & H).
    apply bind_ok in H as (st1 & Happly & H).
    destruct (next_move_wf _ _ _ Hwf Hmove) as [Hwf' Hm].
    destruct (apply_move_invariant _ _ _ Hm Hpos HI Happly) as [Hpos1 HI1].
    apply (IH (length rest)) with (toks := rest) (st := st1); auto.
    now apply next_move_shorter in Hmove.
  - now apply consume_trailing_invariant.
Qed.

End Invariant.

Lemma initial_state_pos_ok : pos_ok p (initial_state p).
Proof.
  unfold pos_ok, initial_state. simpl. apply Forall_forall. intros b Hb.
  apply list_elem_of_In in Hb. apply filter_In in Hb as [Hb _].
  now apply list_elem_of_In.
Qed.

End LoopFacts.

(** ** Stripping the trailing separators *)

Lemma rstrip_no_trailing (c : ascii) (s : string) :
  Str.endswith_char (Str.rstrip c s) c = false.
Proof.
  unfold Str.endswith_char. induction s as [|d s IH]; [reflexivity|].
  simpl. destruct (Str.rstrip c s) as [|e r] eqn:E.
  - destruct (Ascii.eqb d c) eqn:Hd; [reflexivity|].
    simpl. now rewrite Ascii.eqb_sym.
  - exact IH.
Qed.

Lemma rstrip_repeat (c : ascii) (n : nat) :
  Str.rstrip c (Str.repeat_char c n) = "".
Proof.
  unfold Str.repeat_char. induction n as [|n IH]; [reflexivity|].
  simpl. rewrite IH. now rewrite Ascii.eqb_refl.
Qed.

Lemma rstrip_append_repeat (c : ascii) (base : string) (n : nat) :
  Str.endswith_char base c = false ->
  Str.rstrip c (base +:+ Str.repeat_char c n) = base.
Proof.
  unfold Str.endswith_char.
  induction base as [|d base IH]; intros Hend.
  - rewrite append_nil_l. apply rstrip_repeat.
  - rewrite append_cons. simpl. destruct base as [|e base].
    + rewrite append_nil_l, rstrip_repeat. simpl in Hend.
      rewrite Ascii.eqb_sym in Hend. now rewrite Hend.
    + rewrite IH by exact Hend. reflexivity.
Qed.

Lemma rstrip_unchanged (c : ascii) (s : string) :
  Str.endswith_char s c = false -> Str.rstrip c s = s.
Proof.
  intros H. rewrite <- (append_nil_r s) at 1.
  now apply (rstrip_append_repeat c s 0).
Qed.

(** ** From the parsed namespace to the options record *)

Lemma finish_options_ok (opts r : gmap string value) :
  finish_options opts = Ok r ->
  exists project name level,
    opts !! "project" = Some (VStr project)
    /\ opts !! "log_level" = Some (VStr name)
    /\ logging_getattr name = Some level
    /\ r = filter (fun kv : string * value => snd kv <> VNone)
             (<["log_level" := VInt level]>
                (<["project" := VStr (Str.rstrip posixpath.sep project)]> opts)).
Proof.
  unfold finish_options.
  destruct (opts !! "project") as [[|project| | | | |]|] eqn:Hp; try discriminate.
  rewrite lookup_insert_ne by discriminate.
  destruct (opts !! "log_level") as [[|name| | | | |]|] eqn:Hl; try discriminate.
  destruct (logging_getattr name) as [level|] eqn:Hg; [|discriminate].
  intros [= <-]. eauto 10.
Qed.

Lemma finish_options_project (opts r : gmap string value) :
  finish_options opts = Ok r ->
  exists project,
    opts !! "project" = Some (VStr project)
    /\ r !! "project" = Some (VStr (Str.rstrip posixpath.sep project)).
Proof.
  intros H. apply finish_options_ok in H
    as (project & name & level & Hp & _ & _ & ->).
  exists project. split; [exact Hp|].
  apply map_lookup_filter_Some. split; [|discriminate].
  rewrite lookup_insert_ne by discriminate. apply lookup_insert_eq.
Qed.

(** Keys other than [project] and [log_level] keep their value, unless it
    is [None]. *)
Lemma finish_options_other (opts r : gmap string value) (k : string) (v : value) :
  finish_options opts = Ok r ->
  k <> "project" -> k <> "log_level" ->
  r !! k = Some v <-> opts !! k = Some v /\ v <> VNone.
Proof.
  intros H Hk1 Hk2. apply finish_options_ok in H
    as (project & name & level & _ & _ & _ & ->).
  rewrite map_lookup_filter_Some. rewrite !lookup_insert_ne by congruence.
  reflexivity.
Qed.

Lemma finish_options_no_none (opts r : gmap string value) (k : string) :
  finish_options opts = Ok r -> r !! k <> Some VNone.
Proof.
  intros H. apply finish_options_ok in H
    as (project & name & level & _ & _ & _ & ->).
  intros Hk. apply map_lookup_filter_Some in Hk as [_ Hk]. now apply Hk.
Qed.


(** ** Every option string is acted upon *)

Section OptionsTaken.
Import argparse Loop.
Variable p : ArgumentParser.

Lemma supplies_has_option (a : Action) (toks : list ctoken) :
  supplies a toks -> has_option toks = true.
Proof.
  intros (s & o & e & Hin). unfold has_option. apply existsb_exists.
  exists (s, PatO (Some a, o, e)). split; [now apply list_elem_of_In|reflexivity].
Qed.

Lemma next_move_rest (t : ctoken) (toks rest : list ctoken) (m : move) :
  next_move p (t :: toks) = Ok (m, rest) ->
  rest = toks \/ exists v, toks = (v, PatA) :: rest.
Proof.
  destruct t as [s pat]. cbn [next_move].
  destruct pat as [|[[[a|] option_string] explicit_arg]|];
    try (intros [= _ <-]; now left).
  intros H. apply bind_ok in H as ([tuples pending] & _ & H).
  destruct pending as [a'|]; [|injection H as _ <-; now left].
  destruct (nargs a'); [|injection H as _ <-; now left].
  destruct toks as [|[v [| |]] rest']; try discriminate.
  injection H as _ <-. right. now exists v.
Qed.

Lemma cluster_head (a : Action) (o e : string)
    (tuples : list (Action * list string)) (pending : option Action) :
  cluster p a o e = Ok (tuples, pending) ->
  exists args more, tuples = (a, args) :: more.
Proof.
  destruct e as [|c e]; simpl.
  - destruct (nargs a); [intros [= <- _]; eauto|].
    destruct (second_is_prefix_char o); discriminate.
  - destruct (nargs a); [intros [= <- _]; eauto|].
    destruct (second_is_prefix_char o); [discriminate|].
    destruct (lookup_option p _) as [a'|]; [|discriminate].
    destruct (String.eqb e ""); [intros [= <- _]; eauto|].
    intros H. apply bind_ok in H as ([tuples' pending'] & _ & [= <- _]). eauto.
Qed.

Lemma next_move_head (s o : string) (a : Action) (e : option string)
    (toks rest : list ctoken) (m : move) :
  next_move p ((s, PatO (Some a, o, e)) :: toks) = Ok (m, rest) ->
  exists args more, m = MTake ((a, args) :: more).
Proof.
  cbn [next_move]. intros H.
  apply bind_ok in H as ([tuples pending] & Hc & H).
  destruct e as [e|].
  - apply cluster_head in Hc as (args & more & ->).
    destruct pending as [a'|]; [|injection H as <- _; eauto].
    destruct (nargs a'); [|injection H as <- _; simpl; eauto].
    destruct toks as [|[v [| |]] rest']; try discriminate.
    injection H as <- _. simpl. eauto.
  - injection Hc as <- <-. destruct (nargs a).
    + destruct toks as [|[v [| |]] rest']; try discriminate.
      injection H as <- _. simpl. eauto.
    + injection H as <- _. simpl. eauto.
Qed.

Lemma consume_takes_options (a : Action) (toks : list ctoken)
    (st st' : pstate) :
  Forall (wf_token p) toks ->
  pos_ok p st ->
  consume p st toks = Ok st' ->
  supplies a toks ->
  a ∈ seen_actions st' /\ a ∈ seen_non_default_actions st'.
Proof.
  set (Inv := fun st : pstate =>
                a ∈ seen_actions st /\ a ∈ seen_non_default_actions st).
  assert (Inv_take : forall st st' b args,
             b ∈ actions p -> Inv st -> take_action p st b args = Ok st' ->
             Inv st').
  { intros st0 st1 b args _ [H1 H2] H.
    apply take_action_ok in H as (_ & _ & _ & _ & _ & E1 & E2 & _).
    unfold Inv. rewrite E1, E2. split; now right. }
  remember (length toks) as n eqn:Hn. revert toks Hn st.
  induction n as [n IH] using lt_wf_ind.
  intros toks -> st Hwf Hpos H Hsup.
  rewrite consume_unfold, (supplies_has_option _ _ Hsup) in H.
  apply bind_ok in H as ([m rest] & Hmove & H).
  apply bind_ok in H as (st1 & Happly & H).
  destruct (next_move_wf _ _ _ _ Hwf Hmove) as [Hwf' Hm].
  pose proof (next_move_shorter _ _ _ _ (supplies_has_option _ _ Hsup) Hmove)
    as Hlen.
  destruct toks as [|t toks]; [simpl in Hlen; lia|].
  destruct Hsup as (s & o & e & Hin).
  apply elem_of_cons in Hin as [<-|Hin].
  - (* the option string is the one at hand *)
    destruct (next_move_head _ _ _ _ _ _ _ Hmove) as (args & more & ->).
    simpl in Happly. apply bind_ok in Happly as (st0 & Htake & Hmore).
    assert (Inv st0) as H0.
    { apply take_action_ok in Htake as (_ & _ & _ & _ & _ & E1 & E2 & _).
      unfold Inv. rewrite E1, E2. split; left. }
    assert (pos_ok p st0) as Hpos0.
    { apply take_action_ok in Htake as (_ & _ & _ & _ & _ & _ & _ & E & _).
      unfold pos_ok. now rewrite E. }
    specialize (Hm _ eq_refl). apply Forall_cons in Hm as [_ Hm].
    destruct (take_actions_invariant p Inv Inv_take _ _ _ Hm Hpos0 H0 Hmore)
      as [Hpos1 H1].
    eapply (consume_invariant p Inv); eauto.
  - (* it comes later *)
    assert (Hpos1 : pos_ok p st1).
    { eapply (apply_move_invariant p (fun _ => True)); eauto. }
    apply (IH (length rest)) with (toks := rest) (st := st1); auto.
    exists s, o, e.
    destruct (next_move_rest _ _ _ _ Hmove) as [->|(v & ->)]; [exact Hin|].
    apply elem_of_cons in Hin as [Heq|Hin]; [discriminate|exact Hin].
Qed.

End OptionsTaken.


(** ** Two runs over the same argument strings *)

Section TwoRuns.
Import argparse Loop.
Variable p : ArgumentParser.
Variable a : Action.
Hypothesis dest_unique :
  forall b, b ∈ actions p -> dest b = dest a -> b = a.
Hypothesis a_replaces : forall c, kind a <> AppendConst c.

Lemma agree_refl (st1 st2 : pstate) : agree a st1 st2 st1 st2.
Proof. now right. Qed.

Lemma agree_trans (st1 st2 m1 m2 st1' st2' : pstate) :
  agree a st1 st2 m1 m2 -> agree a m1 m2 st1' st2' ->
  agree a st1 st2 st1' st2'.
Proof.
  intros H1 [[E S]|[E1 E2]]; [left; now split|].
  destruct H1 as [[E S]|[F1 F2]].
  - left. split; [congruence|].
    assert (bool_decide (a ∈ seen_actions st1') = true) as Hb.
    { transitivity (snd (view a st1')); [reflexivity|].
      rewrite E1. simpl. now apply bool_decide_eq_true. }
    now apply bool_decide_eq_true in Hb.
  - right. split; congruence.
Qed.

Lemma take_action_view_same (st1 st2 st1' st2' : pstate) (args : list string) :
  take_action p st1 a args = Ok st1' ->
  take_action p st2 a args = Ok st2' ->
  view a st1' = view a st2' /\ a ∈ seen_actions st1'.
Proof.
  intros H1 H2.
  apply take_action_ok in H1 as (v1 & s1 & Hv1 & Hk1 & Hns1 & Hseen1 & _).
  apply take_action_ok in H2 as (v2 & s2 & Hv2 & Hk2 & Hns2 & Hseen2 & _).
  assert (v1 = v2) as -> by congruence.
  assert (s1 = s2) as ->.
  { destruct Hk1 as [[K1 ->]|[K1|(c & K1 & _)]];
      [| |now contradiction (a_replaces c)];
      destruct Hk2 as [[K2 ->]|[K2|(c & K2 & _)]];
      try congruence; now contradiction (a_replaces c). }
  unfold view. rewrite Hns1, Hns2, Hseen1, Hseen2, !lookup_insert_eq.
  split; [|left].
  f_equal. rewrite !bool_decide_eq_true_2; [reflexivity|left..].
Qed.

Lemma take_action_view_other (st st' : pstate) (b : Action) (args : list string) :
  b ∈ actions p -> b <> a ->
  take_action p st b args = Ok st' ->
  view a st' = view a st.
Proof.
  intros Hb Hne H.
  apply take_action_ok in H as (v & s & _ & _ & Hns & Hseen & _).
  unfold view. rewrite Hns, Hseen.
  rewrite lookup_insert_ne by (intros E; now apply Hne, dest_unique).
  f_equal. apply bool_decide_ext. rewrite elem_of_cons.
  split; [intros [E|E]; [congruence|exact E]|now right].
Qed.

Lemma take_action_two_runs (st1 st2 st1' st2' : pstate) (b : Action)
    (args : list string) :
  b ∈ actions p ->
  take_action p st1 b args = Ok st1' ->
  take_action p st2 b args = Ok st2' ->
  agree a st1 st2 st1' st2'.
Proof.
  intros Hb H1 H2. destruct (decide (b = a)) as [->|Hne].
  - left. eapply take_action_view_same; eauto.
  - right. split; eapply take_action_view_other; eauto.
Qed.

Lemma take_actions_two_runs (tuples : list (Action * list string))
    (st1 st2 st1' st2' : pstate) :
  Forall (fun t => wf_action p (fst t)) tuples ->
  take_actions p st1 tuples = Ok st1' ->
  take_actions p st2 tuples = Ok st2' ->
  agree a st1 st2 st1' st2'.
Proof.
  intros Hwf. revert st1 st2.
  induction Hwf as [|[b args] tuples [Hb _] _ IH]; intros st1 st2; simpl.
  - intros [= <-] [= <-]. apply agree_refl.
  - intros H1 H2.
    apply bind_ok in H1 as (m1 & T1 & H1).
    apply bind_ok in H2 as (m2 & T2 & H2).
    eapply agree_trans; [eapply take_action_two_runs; eauto|eauto].
Qed.

Lemma take_action_pos_other (st st' : pstate) (b : Action) (args : list string) :
  pos_other p a st ->
  take_action p st b args = Ok st' ->
  pos_other p a st'.
Proof.
  intros Hpos H.
  apply take_action_ok in H as (_ & _ & _ & _ & _ & _ & _ & E & _).
  unfold pos_other. now rewrite E.
Qed.

Lemma take_actions_pos_other (tuples : list (Action * list string))
    (st st' : pstate) :
  pos_other p a st ->
  take_actions p st tuples = Ok st' ->
  pos_other p a st'.
Proof.
  revert st. induction tuples as [|[b args] tuples IH]; intros st Hpos; simpl.
  - now intros [= <-].
  - intros H. apply bind_ok in H as (m & T & H).
    eapply IH; [|exact H]. eapply take_action_pos_other; eauto.
Qed.

(** Taking the next positional leaves the view of [a] as it is. *)
Lemma take_positional_view (st st' : pstate) (b : Action) (ps : list Action)
    (args : list string) :
  positionals st = b :: ps -> pos_other p a st ->
  take_action p (set_positionals st ps) b args = Ok st' ->
  view a st' = view a st /\ pos_other p a st'.
Proof.
  intros E Hpos H. unfold pos_other in Hpos. rewrite E in Hpos.
  apply Forall_cons in Hpos as [[Hb Hne] Hps]. split.
  - now apply take_action_view_other in H.
  - apply take_action_pos_other in H; [exact H|exact Hps].
Qed.

Lemma apply_move_view (st st' : pstate) (m : move) :
  (forall tuples, m <> MTake tuples) ->
  pos_other p a st ->
  apply_move p st m = Ok st' ->
  view a st' = view a st /\ pos_other p a st'.
Proof.
  intros Hm Hpos. destruct m as [s|s|tuples]; simpl.
  - intros [= <-]. now split.
  - destruct (positionals st) as [|b ps] eqn:E.
    + intros [= <-]. now split.
    + now apply take_positional_view.
  - now contradiction (Hm tuples).
Qed.

Lemma apply_move_pos_other (st st' : pstate) (m : move) :
  pos_other p a st ->
  apply_move p st m = Ok st' ->
  pos_other p a st'.
Proof.
  intros Hpos. destruct m as [s|s|tuples].
  - apply apply_move_view; [discriminate|exact Hpos].
  - apply apply_move_view; [discriminate|exact Hpos].
  - simpl. now apply take_actions_pos_other.
Qed.

Lemma apply_move_two_runs (st1 st2 st1' st2' : pstate) (m : move) :
  (forall tuples, m = MTake tuples ->
                  Forall (fun t => wf_action p (fst t)) tuples) ->
  pos_other p a st1 -> pos_other p a st2 ->
  apply_move p st1 m = Ok st1' ->
  apply_move p st2 m = Ok st2' ->
  agree a st1 st2 st1' st2'.
Proof.
  intros Hwf Hpos1 Hpos2 H1 H2.
  destruct m as [s|s|tuples].
  - right. split.
    + exact (proj1 (apply_move_view st1 st1' (MExtra s)
                      ltac:(discriminate) Hpos1 H1)).
    + exact (proj1 (apply_move_view st2 st2' (MExtra s)
                      ltac:(discriminate) Hpos2 H2)).
  - right. split.
    + exact (proj1 (apply_move_view st1 st1' (MPositional s)
                      ltac:(discriminate) Hpos1 H1)).
    + exact (proj1 (apply_move_view st2 st2' (MPositional s)
                      ltac:(discriminate) Hpos2 H2)).
  - simpl in H1, H2.
    exact (take_actions_two_runs tuples st1 st2 st1' st2' (Hwf _ eq_refl) H1 H2).
Qed.

Lemma consume_trailing_view (toks : list ctoken) (st st' : pstate) :
  pos_other p a st ->
  consume_trailing p st toks = Ok st' ->
  view a st' = view a st.
Proof.
  remember (length toks) as n eqn:Hn. revert toks Hn st.
  induction n as [n IH] using lt_wf_ind. intros toks -> st Hpos H.
  apply consume_trailing_cases in H
    as [->|(b & ps & args & rest & st1 & E & Htake & Hrest & Hshape)].
  - reflexivity.
  - destruct (take_positional_view _ _ _ _ _ E Hpos Htake) as [Hv Hpos1].
    rewrite <- Hv.
    apply (IH (length rest)) with (toks := rest); auto.
    destruct Hshape as [(x & d & -> & _)|[(x & -> & _)|(d & y & -> & _)]];
      simpl; lia.
Qed.

Lemma consume_two_runs (toks : list ctoken) (st1 st2 st1' st2' : pstate) :
  Forall (wf_token p) toks ->
  pos_other p a st1 -> pos_other p a st2 ->
  consume p st1 toks = Ok st1' ->
  consume p st2 toks = Ok st2' ->
  agree a st1 st2 st1' st2'.
Proof.
  remember (length toks) as n eqn:Hn. revert toks Hn st1 st2.
  induction n as [n IH] using lt_wf_ind.
  intros toks -> st1 st2 Hwf Hpos1 Hpos2.
  rewrite !consume_unfold. destruct (has_option toks) eqn:Hopt.
  - intros H1 H2.
    apply bind_ok in H1 as ([m rest] & Hmove & H1).
    rewrite Hmove in H2. simpl in H2.
    apply bind_ok in H1 as (m1 & A1 & H1).
    apply bind_ok in H2 as (m2 & A2 & H2).
    destruct (next_move_wf _ _ _ _ Hwf Hmove) as [Hwf' Hm].
    assert (Hlen : length rest < length toks)
      by (eapply next_move_shorter; eauto).
    pose proof (apply_move_pos_other _ _ _ Hpos1 A1) as P1.
    pose proof (apply_move_pos_other _ _ _ Hpos2 A2) as P2.
    apply agree_trans with (m1 := m1) (m2 := m2);
      [exact (apply_move_two_runs _ _ _ _ _ Hm Hpos1 Hpos2 A1 A2)|].
    exact (IH (length rest) Hlen rest eq_refl m1 m2 Hwf' P1 P2 H1 H2).
  - intros H1 H2. right.
    split; eapply consume_trailing_view; eauto.
Qed.

(** *** A run over two lists of argument strings, one after the other *)

Lemma has_option_app (l1 l2 : list ctoken) :
  has_option (l1 ++ l2) = has_option l1 || has_option l2.
Proof. apply existsb_app. Qed.

(** When the second list holds an option string, the loop is still running
    when it gets there: the run goes on from some state over the second
    list, or over the second list without its first string, which the last
    option of the first list took as its argument. *)
Lemma consume_app_split (cp ce : list ctoken) (st st' : pstate) :
  has_option ce = true ->
  pos_other p a st ->
  consume p st (cp ++ ce) = Ok st' ->
  exists st_m,
    pos_other p a st_m
    /\ (consume p st_m ce = Ok st'
        \/ exists v ce', ce = (v, PatA) :: ce' /\ consume p st_m ce' = Ok st').
Proof.
  intros Hopt. remember (length cp) as n eqn:Hn. revert cp Hn st.
  induction n as [n IH] using lt_wf_ind. intros cp -> st Hpos H.
  destruct cp as [|t cp].
  - exists st. split; [exact Hpos|]. left. exact H.
  - rewrite consume_unfold, has_option_app, Hopt, orb_true_r in H.
    apply bind_ok in H as ([m rest] & Hmove & H).
    apply bind_ok in H as (st1 & A1 & H).
    pose proof (apply_move_pos_other _ _ _ Hpos A1) as P1.
    rewrite <- app_comm_cons in Hmove.
    destruct (next_move_rest _ _ _ _ _ Hmove) as [->|[v E]].
    + apply (IH (length cp)) with (cp := cp) (st := st1); simpl; auto; lia.
    + destruct cp as [|c cp].
      * simpl in E. exists st1. split; [exact P1|]. right. eauto.
      * rewrite <- app_comm_cons in E. injection E as -> <-.
        apply (IH (length cp)) with (cp := cp) (st := st1); simpl; auto; lia.
Qed.

(** Without an option string nothing but the positionals is taken. *)
Lemma consume_without_option (toks : list ctoken) (st st' : pstate) :
  has_option toks = false ->
  pos_other p a st ->
  consume p st toks = Ok st' ->
  view a st' = view a st.
Proof.
  intros Hopt Hpos H. rewrite consume_unfold, Hopt in H.
  eapply consume_trailing_view; eauto.
Qed.

End TwoRuns.

(** ** Argument strings after a [--] *)

Section AfterDash.
Import argparse Loop.
Variable p : ArgumentParser.

(** The classification of two lists of argument strings, one after the
    other: the two classifications, unless the first list holds a [--],
    after which every string is an argument. *)
Lemma classify_app (lp le : list string) (toks : list ctoken) :
  classify p (lp ++ le) = Ok toks ->
  (exists cp ce,
     classify p lp = Ok cp /\ classify p le = Ok ce /\ toks = cp ++ ce)
  \/ (exists c1 d ts,
        toks = c1 ++ (d, PatDash) :: map (fun s => (s, PatA)) (ts ++ le)).
Proof.
  revert toks. induction lp as [|s lp IH]; intros toks H.
  - left. exists [], toks. auto.
  - rewrite <- app_comm_cons in H. cbn [classify] in H.
    destruct (String.eqb s "--") eqn:E.
    + injection H as <-. right. exists [], s, lp. reflexivity.
    + apply bind_ok in H as (tup & Htup & H).
      apply bind_ok in H as (more & Hmore & H). injection H as <-.
      destruct (IH more Hmore) as [(cp & ce & Hcp & Hce & ->)|(c1 & d & ts & ->)].
      * left. eexists _, ce. split; [|split; [exact Hce|]].
        -- cbn [classify]. rewrite E, Htup, Hcp. reflexivity.
        -- reflexivity.
      * right. eexists (_ :: c1), d, ts. reflexivity.
Qed.

Lemma classify_length (l : list string) (toks : list ctoken) :
  classify p l = Ok toks -> length toks = length l.
Proof.
  revert toks. induction l as [|s l IH]; intros toks H.
  - injection H as <-. reflexivity.
  - cbn [classify] in H. destruct (String.eqb s "--").
    + injection H as <-. simpl. now rewrite length_map.
    + apply bind_ok in H as (tup & _ & H).
      apply bind_ok in H as (more & Hmore & H). injection H as <-.
      simpl. now rewrite (IH more Hmore).
Qed.

Lemma has_option_arguments (ts : list string) :
  has_option (map (fun s => (s, PatA)) ts) = false.
Proof. induction ts; auto. Qed.

Lemma take_actions_ok (tuples : list (Action * list string)) (st st' : pstate) :
  take_actions p st tuples = Ok st' ->
  positionals st' = positionals st
  /\ extras st' = extras st
  /\ forall b, b ∈ seen_actions st' ->
               b ∈ seen_actions st \/ b ∈ map fst tuples.
Proof.
  revert st. induction tuples as [|[b args] tuples IH]; intros st H.
  - injection H as <-. auto.
  - cbn [take_actions] in H. apply bind_ok in H as (st1 & H1 & H).
    apply take_action_ok in H1
      as (v & stored & _ & _ & _ & Hseen & _ & Hpos & Hextras & _).
    destruct (IH _ H) as (Hpos' & Hextras' & Hseen').
    split; [congruence|]. split; [congruence|].
    intros c Hc. apply Hseen' in Hc as [Hc|Hc].
    + rewrite Hseen in Hc. apply elem_of_cons in Hc as [->|Hc]; [|auto].
      right. simpl. left.
    + right. simpl. now right.
Qed.

Lemma apply_move_positionals (st st' : pstate) (m : move) :
  apply_move p st m = Ok st' ->
  length (positionals st') <= length (positionals st).
Proof.
  destruct m as [s|s|tuples]; simpl; intros H.
  - injection H as <-. reflexivity.
  - destruct (positionals st) as [|b ps] eqn:E.
    + injection H as <-. simpl. now rewrite E.
    + apply take_action_ok in H as (v & stored & _ & _ & _ & _ & _ & -> & _).
      simpl. lia.
  - apply take_actions_ok in H as (-> & _). reflexivity.
Qed.

Lemma consume_trailing_no_positional (st : pstate) (toks : list ctoken) :
  positionals st = [] ->
  consume_trailing p st toks = Ok (add_extras st (map fst toks)).
Proof. intros E. destruct toks; simpl; now rewrite E. Qed.

(** With one positional at most and nothing left unrecognised, the last
    [consume_positionals] saw two argument strings at most. *)
Lemma consume_trailing_no_extras (st st' : pstate) (toks : list ctoken) :
  length (positionals st) <= 1 ->
  consume_trailing p st toks = Ok st' ->
  extras st' = [] ->
  length toks <= 2.
Proof.
  intros Hlen H Hextras.
  apply consume_trailing_cases in H
    as [->|(b & ps & args & rest & st1 & E & Htake & Hrest & Hshape)].
  - simpl in Hextras. apply app_eq_nil in Hextras as [_ Hextras].
    apply map_eq_nil in Hextras as ->. simpl. lia.
  - rewrite E in Hlen. destruct ps; [|simpl in Hlen; lia].
    apply take_action_ok in Htake as (v & stored & _ & _ & _ & _ & _ & Hpos & _).
    simpl in Hpos.
    rewrite (consume_trailing_no_positional _ _ Hpos) in Hrest.
    injection Hrest as <-. simpl in Hextras.
    apply app_eq_nil in Hextras as [_ Hextras].
    apply map_eq_nil in Hextras as ->.
    destruct Hshape as [(x & d & -> & _)|[(x & -> & _)|(d & y & -> & _)]];
      simpl; lia.
Qed.

(** With one positional at most, a parse that leaves nothing unrecognised
    saw one argument string at most after a [--]. *)
Lemma consume_dash_no_extras (c1 : list ctoken) (d : string)
    (ts : list string) (st st' : pstate) :
  length (positionals st) <= 1 ->
  consume p st (c1 ++ (d, PatDash) :: map (fun s => (s, PatA)) ts) = Ok st' ->
  extras st' = [] ->
  length ts <= 1.
Proof.
  remember (length c1) as n eqn:Hn. revert c1 Hn st.
  induction n as [n IH] using lt_wf_ind. intros c1 -> st Hlen H Hextras.
  rewrite consume_unfold in H.
  destruct (has_option (c1 ++ (d, PatDash) :: map (fun s => (s, PatA)) ts))
    eqn:Hopt.
  - destruct c1 as [|t c1].
    + simpl in Hopt. unfold has_option in Hopt. simpl in Hopt.
      change (has_option (map (fun s => (s, PatA)) ts) = true) in Hopt.
      now rewrite has_option_arguments in Hopt.
    + apply bind_ok in H as ([m rest] & Hmove & H).
      apply bind_ok in H as (st1 & A1 & H).
      pose proof (apply_move_positionals _ _ _ A1) as Hlen1.
      rewrite <- app_comm_cons in Hmove.
      destruct (next_move_rest _ _ _ _ _ Hmove) as [->|[v E]].
      * apply (IH (length c1)) with (c1 := c1) (st := st1); simpl; auto; lia.
      * destruct c1 as [|c c1]; [discriminate E|].
        rewrite <- app_comm_cons in E. injection E as -> <-.
        apply (IH (length c1)) with (c1 := c1) (st := st1); simpl; auto; lia.
  - apply (consume_trailing_no_extras _ _ _ Hlen H) in Hextras.
    rewrite length_app in Hextras. simpl in Hextras.
    rewrite length_map in Hextras. lia.
Qed.

(** A parse of one argument string at most that took an option did not
    take the positionals. *)
Lemma consume_one_string (toks : list ctoken) (st st' : pstate)
    (a q : Action) :
  (forall b, b ∈ actions p -> dest b = dest a -> b = a) ->
  Forall (wf_token p) toks ->
  length toks <= 1 ->
  seen_actions st = [] ->
  pos_other p a st ->
  option_strings q = [] ->
  consume p st toks = Ok st' ->
  a ∈ seen_actions st' ->
  q ∉ seen_actions st'.
Proof.
  intros Hdest Hwf Hlen Hseen Hpos Hq H Ha.
  destruct (has_option toks) eqn:Hopt.
  - destruct toks as [|t toks]; [discriminate Hopt|].
    destruct toks; [|simpl in Hlen; lia].
    rewrite consume_unfold, Hopt in H.
    apply bind_ok in H as ([m rest] & Hmove & H).
    apply bind_ok in H as (st1 & A1 & H).
    destruct (next_move_wf _ _ _ _ Hwf Hmove) as [_ Hm].
    destruct (next_move_rest _ _ _ _ _ Hmove) as [->|[v E]]; [|discriminate E].
    rewrite consume_unfold in H. simpl in H.
    assert (st' = add_extras st1 []) as ->
      by (destruct (positionals st1); now injection H as <-).
    clear H.
    + simpl. destruct t as [s pat]. unfold has_option in Hopt. simpl in Hopt.
      rewrite orb_false_r in Hopt. unfold is_option in Hopt. simpl in Hopt.
      destruct pat as [|[[[b|] o] e]|]; try discriminate Hopt.
      * simpl in Hmove.
        destruct m as [s'|s'|tuples].
        -- exfalso. revert Hmove. clear.
           destruct e as [e|]; simpl.
           ++ destruct (cluster p b o e) as [[tuples [a'|]]| |]; simpl;
                try discriminate.
              destruct (nargs a'); discriminate.
           ++ destruct (nargs b); discriminate.
        -- exfalso. revert Hmove. clear.
           destruct e as [e|]; simpl.
           ++ destruct (cluster p b o e) as [[tuples [a'|]]| |]; simpl;
                try discriminate.
              destruct (nargs a'); discriminate.
           ++ destruct (nargs b); discriminate.
        -- simpl in A1. apply take_actions_ok in A1 as (_ & _ & Hs).
           intros Hqs. apply Hs in Hqs as [Hqs|Hqs].
           ++ rewrite Hseen in Hqs. now apply elem_of_nil in Hqs.
           ++ specialize (Hm tuples eq_refl).
              apply list_elem_of_In, in_map_iff in Hqs as ([q' args] & <- & Hin).
              rewrite Forall_forall in Hm.
              apply list_elem_of_In in Hin. apply Hm in Hin as [_ Hin].
              now apply Hin.
      * simpl in Hmove. injection Hmove as <-. simpl in A1.
        injection A1 as <-. simpl. rewrite Hseen. apply not_elem_of_nil.
  - exfalso.
    assert (Hv := consume_without_option p a Hdest toks st st' Hopt Hpos H).
    unfold view in Hv. injection Hv as _ Hv.
    rewrite Hseen in Hv.
    rewrite (bool_decide_eq_true_2 _ Ha) in Hv.
    rewrite bool_decide_eq_false_2 in Hv; [discriminate|apply not_elem_of_nil].
Qed.

End AfterDash.

(** ** File references, one argument string at a time *)

Section Expansion.
Import argparse Loop.
Variable w : World.

Lemma read_args_from_files_nil (depth : nat) :
  read_args_from_files w (S depth) [] = Ok [].
Proof. reflexivity. Qed.

Lemma read_args_from_files_cons (depth : nat) (arg_string : string)
    (l : list string) :
  read_args_from_files w (S depth) (arg_string :: l)
  = (expanded ← expand_arg w depth arg_string;
     more ← read_args_from_files w (S depth) l;
     Ok (expanded ++ more)).
Proof.
  cbn [read_args_from_files].
  change ((fix each (l0 : list string) : outcome (list string) :=
             match l0 with
             | [] => Ok []
             | arg_string0 :: l' =>
                 match arg_string0 with
                 | String "@" path =>
                     match open_read w path with
                     | None => Exit 2 CannotOpenFile
                     | Some text =>
                         toks ← convert_lines (Str.splitlines text);
                         expanded ← read_args_from_files w depth toks;
                         more ← each l';
                         Ok (expanded ++ more)
                     end
                 | _ => more ← each l'; Ok (arg_string0 :: more)
                 end
             end) l)
    with (read_args_from_files w (S depth) l).
  destruct (read_args_from_files w (S depth) l) as [more| |] eqn:E.
  - destruct arg_string as [|c path]; [reflexivity|].
    destruct (Ascii.ascii_dec c "@") as [->|Hne].
    + unfold expand_arg. destruct (open_read w path) as [text|]; [|reflexivity].
      destruct (convert_lines (Str.splitlines text)) as [toks| |];
        [|reflexivity..].
      simpl. destruct (read_args_from_files w depth toks); reflexivity.
    + destruct c as [[] [] [] [] [] [] [] []]; try reflexivity.
      now contradiction Hne.
  - destruct arg_string as [|c path]; [reflexivity|].
    destruct (Ascii.ascii_dec c "@") as [->|Hne].
    + unfold expand_arg. destruct (open_read w path) as [text|]; [|reflexivity].
      destruct (convert_lines (Str.splitlines text)) as [toks| |];
        [|reflexivity..].
      simpl. destruct (read_args_from_files w depth toks); reflexivity.
    + destruct c as [[] [] [] [] [] [] [] []]; try reflexivity.
      now contradiction Hne.
  - destruct arg_string as [|c path]; [reflexivity|].
    destruct (Ascii.ascii_dec c "@") as [->|Hne].
    + unfold expand_arg. destruct (open_read w path) as [text|]; [|reflexivity].
      destruct (convert_lines (Str.splitlines text)) as [toks| |];
        [|reflexivity..].
      simpl. destruct (read_args_from_files w depth toks); reflexivity.
    + destruct c as [[] [] [] [] [] [] [] []]; try reflexivity.
      now contradiction Hne.
Qed.

(** Expanding a list of argument strings is expanding its two halves, in
    this order. *)
Lemma read_args_from_files_app (depth : nat) (l1 l2 : list string) :
  read_args_from_files w depth (l1 ++ l2)
  = (x ← read_args_from_files w depth l1;
     y ← read_args_from_files w depth l2;
     Ok (x ++ y)).
Proof.
  destruct depth as [|depth]; [reflexivity|].
  induction l1 as [|arg_string l1 IH].
  - rewrite app_nil_l, read_args_from_files_nil.
    destruct (read_args_from_files w (S depth) l2); reflexivity.
  - rewrite <- app_comm_cons, !read_args_from_files_cons, IH.
    destruct (expand_arg w depth arg_string) as [e| |]; [|reflexivity..].
    destruct (read_args_from_files w (S depth) l1) as [x| |];
      [|reflexivity..].
    destruct (read_args_from_files w (S depth) l2) as [y| |];
      [|reflexivity..].
    cbv [mbind outcome_bind]. now rewrite app_assoc.
Qed.

End Expansion.


(** ** How the argument strings are read *)

Section Reading.
Import argparse Loop.
Variable p : ArgumentParser.

Lemma classify_well_classified (l : list string) (toks : list ctoken) :
  classify p l = Ok toks -> well_classified toks = true.
Proof.
  revert toks. induction l as [|s l IH]; intros toks H.
  - injection H as <-. reflexivity.
  - cbn [classify] in H. destruct (String.eqb s "--") eqn:E.
    + injection H as <-. cbn [well_classified].
      now rewrite E, has_option_arguments.
    + apply bind_ok in H as (tup & _ & H).
      apply bind_ok in H as (more & Hmore & H). injection H as <-.
      destruct tup; cbn [well_classified]; rewrite E; now apply IH.
Qed.

Lemma well_classified_tail (t : ctoken) (toks : list ctoken) :
  well_classified (t :: toks) = true ->
  has_option (t :: toks) = true ->
  well_classified toks = true.
Proof.
  destruct t as [s [|tup|]]; cbn [well_classified]; intros H Hopt.
  - now apply andb_true_iff in H as [_ H].
  - now apply andb_true_iff in H as [_ H].
  - apply andb_true_iff in H as [_ H]. apply negb_true_iff in H.
    unfold has_option in Hopt. simpl in Hopt.
    change (has_option toks = true) in Hopt. congruence.
Qed.

(** One round of the loop on an option string. *)
Lemma next_move_option (s : string) (tup : option_tuple)
    (rest rest' : list ctoken) (m : move) :
  next_move p ((s, PatO tup) :: rest) = Ok (m, rest') ->
  positional_arguments p ((s, PatO tup) :: rest) = positional_arguments p rest'
  /\ (forall s', m <> MPositional s')
  /\ (forall tuples b, m = MTake tuples -> b ∈ map fst tuples ->
                       b ∈ option_actions p tup).
Proof.
  destruct tup as [[[a|] o] e]; cbn [next_move positional_arguments].
  - unfold takes_argument, option_actions, option_tuples.
    destruct e as [e|].
    + destruct (cluster p a o e) as [[tuples [a'|]]| |]; simpl;
        try discriminate.
      * destruct (nargs a') eqn:Hn.
        -- destruct rest as [|[v [| |]] rest0]; try discriminate.
           intros [= <- <-]. split; [reflexivity|].
           split; [discriminate|].
           intros tuples0 b [= <-] Hb. rewrite map_app in Hb. exact Hb.
        -- intros [= <- <-]. split; [reflexivity|].
           split; [discriminate|].
           intros tuples0 b [= <-] Hb. rewrite map_app in Hb. exact Hb.
      * intros [= <- <-]. split; [reflexivity|]. split; [discriminate|].
        intros tuples0 b [= <-] Hb. now rewrite app_nil_r.
    + simpl. destruct (nargs a) eqn:Hn.
      * destruct rest as [|[v [| |]] rest0]; try discriminate.
        intros [= <- <-]. split; [reflexivity|]. split; [discriminate|].
        intros tuples0 b [= <-] Hb. exact Hb.
      * intros [= <- <-]. split; [reflexivity|]. split; [discriminate|].
        intros tuples0 b [= <-] Hb. exact Hb.
  - intros [= <- <-]. split; [reflexivity|]. split; discriminate.
Qed.

Lemma apply_move_seen (st st' : pstate) (m : move) (b : Action) :
  apply_move p st m = Ok st' ->
  b ∈ seen_actions st' ->
  b ∈ seen_actions st
  \/ b ∈ positionals st
  \/ exists tuples, m = MTake tuples /\ b ∈ map fst tuples.
Proof.
  destruct m as [s|s|tuples]; simpl; intros H Hb.
  - injection H as <-. now left.
  - destruct (positionals st) as [|c ps] eqn:E.
    + injection H as <-. now left.
    + apply take_action_ok in H as (v & stored & _ & _ & _ & Hseen & _).
      rewrite Hseen in Hb. simpl in Hb.
      apply elem_of_cons in Hb as [->|Hb]; [right; left; left|now left].
  - apply take_actions_ok in H as (_ & _ & Hs).
    apply Hs in Hb as [Hb|Hb]; [now left|]. right. right. eauto.
Qed.

Lemma consume_trailing_seen (toks : list ctoken) (st st' : pstate)
    (b : Action) :
  consume_trailing p st toks = Ok st' ->
  b ∈ seen_actions st' ->
  b ∈ seen_actions st \/ b ∈ positionals st.
Proof.
  remember (length toks) as n eqn:Hn. revert toks Hn st.
  induction n as [n IH] using lt_wf_ind. intros toks -> st H Hb.
  apply consume_trailing_cases in H
    as [->|(c & ps & args & rest & st1 & E & Htake & Hrest & Hshape)].
  - now left.
  - apply take_action_ok in Htake
      as (v & stored & _ & _ & _ & Hseen & _ & Hpos & _).
    assert (Hlen : length rest < length toks)
      by (destruct Hshape as [(x & d & -> & _)|[(x & -> & _)|(d & y & -> & _)]];
          simpl; lia).
    destruct (IH (length rest) Hlen rest eq_refl st1 Hrest Hb) as [Hb'|Hb'].
    + rewrite Hseen in Hb'. simpl in Hb'. rewrite E.
      apply elem_of_cons in Hb' as [->|Hb']; [right; left|now left].
    + rewrite Hpos in Hb'. simpl in Hb'. rewrite E. right. now right.
Qed.

(** An action that was taken is a positional or one of the actions an
    option string among the argument strings stands for. *)
Lemma consume_seen (toks : list ctoken) (st st' : pstate) (b : Action) :
  consume p st toks = Ok st' ->
  b ∈ seen_actions st' ->
  b ∈ seen_actions st
  \/ b ∈ positionals st
  \/ exists s tup, (s, PatO tup) ∈ toks /\ b ∈ option_actions p tup.
Proof.
  remember (length toks) as n eqn:Hn. revert toks Hn st.
  induction n as [n IH] using lt_wf_ind. intros toks -> st H Hb.
  rewrite consume_unfold in H. destruct (has_option toks) eqn:Hopt.
  - apply bind_ok in H as ([m rest] & Hmove & H).
    apply bind_ok in H as (st1 & A1 & H).
    assert (Hlen : length rest < length toks)
      by (eapply next_move_shorter; eauto).
    destruct toks as [|[s pat] toks]; [discriminate Hopt|].
    assert (Hsub : forall t, t ∈ rest -> t ∈ (s, pat) :: toks).
    { intros t Ht.
      destruct (next_move_rest _ _ _ _ _ Hmove) as [->|[v ->]].
      - now right.
      - right. now right. }
    destruct (IH (length rest) Hlen rest eq_refl st1 H Hb)
      as [Hb1|[Hb1|(s' & tup & Hin & Hb1)]].
    + destruct (apply_move_seen _ _ _ _ A1 Hb1)
        as [?|[?|(tuples & -> & Hin)]]; auto.
      right. right.
      destruct pat as [|tup|]; try (simpl in Hmove; discriminate Hmove).
      exists s, tup. split; [left|].
      destruct (next_move_option _ _ _ _ _ Hmove) as (_ & _ & Htup).
      eapply Htup; eauto.
    + right. left.
      assert (Hpos : length (positionals st1) <= length (positionals st))
        by (eapply apply_move_positionals; eauto).
      revert A1 Hb1. clear. destruct m as [x|x|tuples]; simpl.
      * intros [= <-]. auto.
      * destruct (positionals st) as [|c ps] eqn:E.
        -- intros [= <-]. simpl. now rewrite E.
        -- intros H. apply take_action_ok in H
             as (v & stored & _ & _ & _ & _ & _ & Hpos & _).
           rewrite Hpos. simpl. intros Hb. now right.
      * intros H. apply take_actions_ok in H as (-> & _). auto.
    + right. right. exists s', tup. split; auto.
  - destruct (consume_trailing_seen _ _ _ _ H Hb); auto.
Qed.

End Reading.

(** ** The first positional *)

Section FirstPositional.
Import argparse Loop.
Variable p : ArgumentParser.
Variable q : Action.
Hypothesis dest_unique :
  forall b, b ∈ actions p -> dest b = dest q -> b = q.
Hypothesis q_positional : option_strings q = [].
Hypothesis q_stores : kind q = Store.
Hypothesis q_one : nargs q = NargsOne.
Hypothesis q_any : choices q = None.

Lemma take_actions_view_option (tuples : list (Action * list string))
    (st st' : pstate) :
  Forall (fun t => wf_action p (fst t)) tuples ->
  take_actions p st tuples = Ok st' ->
  view q st' = view q st.
Proof.
  intros Hwf. revert st.
  induction Hwf as [|[b args] tuples [Hb Ho] _ IH]; intros st; simpl.
  - now intros [= <-].
  - intros H. apply bind_ok in H as (st1 & T1 & H).
    rewrite (IH _ H).
    eapply take_action_view_other; eauto.
    intros E. apply Ho. simpl in *. congruence.
Qed.

(** Once it is no longer among the positionals to parse, a positional
    keeps its value. *)
Lemma consume_view_positional (toks : list ctoken) (st st' : pstate) :
  Forall (wf_token p) toks ->
  pos_other p q st ->
  consume p st toks = Ok st' ->
  view q st' = view q st.
Proof.
  remember (length toks) as n eqn:Hn. revert toks Hn st.
  induction n as [n IH] using lt_wf_ind. intros toks -> st Hwf Hpos.
  rewrite consume_unfold. destruct (has_option toks) eqn:Hopt.
  - intros H.
    apply bind_ok in H as ([m rest] & Hmove & H).
    apply bind_ok in H as (st1 & A1 & H).
    destruct (next_move_wf _ _ _ _ Hwf Hmove) as [Hwf' Hm].
    assert (Hlen : length rest < length toks)
      by (eapply next_move_shorter; eauto).
    pose proof (apply_move_pos_other p q dest_unique _ _ _ Hpos A1) as P1.
    rewrite (IH (length rest) Hlen rest eq_refl st1 Hwf' P1 H).
    destruct m as [s|s|tuples].
    + exact (proj1 (apply_move_view p q dest_unique st st1 (MExtra s)
                      ltac:(discriminate) Hpos A1)).
    + exact (proj1 (apply_move_view p q dest_unique st st1 (MPositional s)
                      ltac:(discriminate) Hpos A1)).
    + simpl in A1.
      exact (take_actions_view_option tuples st st1 (Hm tuples eq_refl) A1).
  - intros H. eapply consume_trailing_view; eauto.
Qed.

Lemma get_values_one (s : string) :
  s <> "--" -> get_values q [s] = Ok (VStr s).
Proof.
  intros Hs. unfold get_values. simpl.
  destruct (String.eqb_spec s "--") as [E|_]; [contradiction|].
  rewrite q_one. unfold check_value. now rewrite q_any.
Qed.

Lemma get_values_after_dash (s : string) :
  get_values q ["--"; s] = Ok (VStr s).
Proof.
  unfold get_values. simpl. rewrite q_one. unfold check_value.
  now rewrite q_any.
Qed.

Lemma get_values_before_dash (s : string) :
  s <> "--" -> get_values q [s; "--"] = Ok (VStr s).
Proof.
  intros Hs. unfold get_values. simpl.
  destruct (String.eqb_spec s "--") as [E|_]; [contradiction|]. simpl.
  rewrite q_one. unfold check_value. now rewrite q_any.
Qed.

(** What the first positional gets when it is taken. *)
Lemma take_first_positional (st st' : pstate) (ps : list Action)
    (args : list string) (name : string) :
  get_values q args = Ok (VStr name) ->
  take_action p (set_positionals st ps) q args = Ok st' ->
  namespace st' !! dest q = Some (VStr name)
  /\ positionals st' = ps.
Proof.
  intros Hv H.
  apply take_action_ok in H
    as (v & stored & Hv' & Hk & Hns & _ & _ & Hpos & _).
  split; [|exact Hpos].
  rewrite Hns, lookup_insert_eq.
  destruct Hk as [[_ ->]|[Hk|(c & Hk & _)]]; congruence.
Qed.

(** The first positional, when it is taken, gets the first of the argument
    strings given for the positionals. *)
Lemma consume_first_positional (toks : list ctoken) (st st' : pstate)
    (ps : list Action) :
  Forall (wf_token p) toks ->
  well_classified toks = true ->
  positionals st = q :: ps ->
  Forall (fun b => b ∈ actions p /\ b <> q) ps ->
  q ∉ seen_actions st ->
  consume p st toks = Ok st' ->
  q ∈ seen_actions st' ->
  exists name,
    head (positional_arguments p toks) = Some name
    /\ namespace st' !! dest q = Some (VStr name).
Proof.
  remember (length toks) as n eqn:Hn. revert toks Hn st.
  induction n as [n IH] using lt_wf_ind.
  intros toks -> st Hwf Hwell Hpos Hps Hunseen H Hseen.
  rewrite consume_unfold in H. destruct (has_option toks) eqn:Hopt.
  - apply bind_ok in H as ([m rest] & Hmove & H).
    apply bind_ok in H as (st1 & A1 & H).
    destruct (next_move_wf _ _ _ _ Hwf Hmove) as [Hwf' Hm].
    assert (Hlen : length rest < length toks)
      by (eapply next_move_shorter; eauto).
    destruct toks as [|[s pat] toks]; [discriminate Hopt|].
    pose proof (well_classified_tail _ _ Hwell Hopt) as Hwell'.
    destruct pat as [|tup|].
    + (* an argument string: the positional takes it *)
      simpl in Hmove. injection Hmove as <- <-.
      simpl in A1. rewrite Hpos in A1.
      assert (Hs : s <> "--").
      { cbn [well_classified] in Hwell.
        apply andb_true_iff in Hwell as [Hs _]. apply negb_true_iff in Hs.
        now apply String.eqb_neq. }
      destruct (take_first_positional _ _ _ _ _ (get_values_one s Hs) A1)
        as [Hns Hpos1].
      exists s. split; [reflexivity|].
      assert (Hother : pos_other p q st1)
        by (unfold pos_other; now rewrite Hpos1).
      pose proof (consume_view_positional _ _ _ Hwf' Hother H) as Hv.
      unfold view in Hv. injection Hv as Hv _. now rewrite Hv.
    + (* an option string *)
      destruct (next_move_option p _ _ _ _ _ Hmove) as (Hargs & Hnp & Htup).
      assert (Hrest : well_classified rest = true).
      { destruct (next_move_rest _ _ _ _ _ Hmove) as [->|[v E]];
          [exact Hwell'|].
        rewrite E in Hwell'. cbn [well_classified] in Hwell'.
        now apply andb_true_iff in Hwell' as [_ Hwell']. }
      assert (Hst1 : positionals st1 = q :: ps /\ q ∉ seen_actions st1).
      { destruct m as [x|x|tuples]; simpl in A1.
        - injection A1 as <-. now split.
        - now contradiction (Hnp x).
        - apply take_actions_ok in A1 as (-> & _ & Hs).
          split; [exact Hpos|]. intros Hq. apply Hs in Hq as [Hq|Hq];
            [contradiction|].
          specialize (Hm tuples eq_refl).
          apply list_elem_of_In, in_map_iff in Hq as ([q' args] & <- & Hin).
          rewrite Forall_forall in Hm.
          apply list_elem_of_In in Hin. apply Hm in Hin as [_ Hin].
          now apply Hin. }
      destruct Hst1 as [Hpos1 Hunseen1].
      destruct (IH (length rest) Hlen rest eq_refl st1 Hwf' Hrest Hpos1 Hps
                  Hunseen1 H Hseen) as (name & Hhead & Hns).
      exists name. split; [|exact Hns].
      transitivity (head (positional_arguments p rest)); [|exact Hhead].
      f_equal. exact Hargs.
    + (* the [--] comes after the option strings *)
      exfalso. cbn [well_classified] in Hwell.
      apply andb_true_iff in Hwell as [_ Hwell]. apply negb_true_iff in Hwell.
      unfold has_option in Hopt. simpl in Hopt.
      change (has_option toks = true) in Hopt. congruence.
  - apply consume_trailing_cases in H
      as [->|(b & ps' & args & rest & st1 & E & Htake & Hrest & Hshape)];
      [contradiction|].
    rewrite Hpos in E. injection E as <- <-.
    assert (Hname : exists name,
               head (positional_arguments p toks) = Some name
               /\ get_values q args = Ok (VStr name)).
    { destruct Hshape as [(x & d & -> & ->)|[(x & -> & ->)|(d & y & -> & ->)]].
      - cbn [well_classified] in Hwell.
        apply andb_true_iff in Hwell as [Hx Hd].
        apply andb_true_iff in Hd as [Hd _].
        apply negb_true_iff, String.eqb_neq in Hx.
        apply String.eqb_eq in Hd as ->.
        exists x. split; [reflexivity|now apply get_values_before_dash].
      - cbn [well_classified] in Hwell.
        apply andb_true_iff in Hwell as [Hx _].
        apply negb_true_iff, String.eqb_neq in Hx.
        exists x. split; [reflexivity|now apply get_values_one].
      - cbn [well_classified] in Hwell.
        apply andb_true_iff in Hwell as [Hd _].
        apply String.eqb_eq in Hd as ->.
        exists y. split; [reflexivity|apply get_values_after_dash]. }
    destruct Hname as (name & Hhead & Hv).
    destruct (take_first_positional _ _ _ _ _ Hv Htake) as [Hns Hpos1].
    exists name. split; [exact Hhead|].
    assert (Hother : pos_other p q st1)
      by (unfold pos_other; now rewrite Hpos1).
    pose proof (consume_trailing_view p q dest_unique _ _ _ Hother Hrest) as Hview.
    unfold view in Hview. injection Hview as Hview _. now rewrite Hview.
Qed.

End FirstPositional.

(** ** [parse_args] *)

Section CliFacts.
Variable license_choices : list string.
Variable cli_extenders
  : list (argparse.ArgumentParser -> outcome argparse.ArgumentParser).

Lemma parse_args_ok (w : World) (args : list string) (r : gmap string value) :
  parse_args license_choices cli_extenders w args = Ok r ->
  setuptools_ok w = true
  /\ exists parser opts,
       cli_parser license_choices cli_extenders = Ok parser
       /\ parsed_options parser w (with_profile w args) = Ok opts
       /\ finish_options opts = Ok r.
Proof.
  unfold parse_args. destruct (setuptools_ok w); [|discriminate]. simpl.
  intros H. apply bind_ok in H as (parser & H0 & H).
  apply bind_ok in H as (opts & H1 & H2). eauto 6.
Qed.

Lemma cli_parser_unfold :
  cli_parser license_choices cli_extenders
  = augment_all cli_extenders (default_parser license_choices).
Proof. reflexivity. Qed.

(** ** The profile (C2, C10) *)

(** C2: when the profile variable is the string [none], no profile file is
    loaded: the parser gets the explicit arguments and the result is that
    of parsing them alone, whatever files the configuration directory
    holds. *)
Theorem profile_none_loads_no_file (w : World) (args : list string) :
  getenv w "PYSCAFFOLD_PROFILE" = Some "none" ->
  with_profile w args = args
  /\ parse_args license_choices cli_extenders w args
     = parse_explicit_args license_choices cli_extenders w args.
Proof.
  intros Hnone.
  assert (Hargs : with_profile w args = args).
  { unfold with_profile. rewrite Hnone.
    rewrite bool_decide_eq_false_2; [reflexivity|]. intros H. now apply H. }
  split; [exact Hargs|].
  unfold parse_args, parse_explicit_args. now rewrite Hargs.
Qed.

(** C10: when the file of the selected profile (or of [default]) does not
    exist, the parser gets the explicit arguments alone; nothing is
    reported about the missing file. *)
Theorem missing_profile_file_ignored (w : World) (args : list string) :
  getenv w "PYSCAFFOLD_PROFILE" <> Some "none" ->
  posixpath.exists_ w (get_args_file w (getenv w "PYSCAFFOLD_PROFILE")) = false ->
  with_profile w args = args
  /\ parse_args license_choices cli_extenders w args
     = parse_explicit_args license_choices cli_extenders w args.
Proof.
  intros Hprofile Hmissing.
  assert (Hargs : with_profile w args = args).
  { unfold with_profile. rewrite bool_decide_eq_true_2 by exact Hprofile.
    now rewrite Hmissing. }
  split; [exact Hargs|].
  unfold parse_args, parse_explicit_args. now rewrite Hargs.
Qed.

(** ** The project name has no trailing separator (C5) *)

(** C5, as the code has it: whatever options the extensions add, the
    [project] value of an accepted argument list is a string with no
    trailing path separator. It can be empty. *)
Theorem project_has_no_trailing_separator (w : World) (args : list string)
    (r : gmap string value) :
  parse_args license_choices cli_extenders w args = Ok r ->
  exists project,
    r !! "project" = Some (VStr project)
    /\ Str.endswith_char project posixpath.sep = false.
Proof.
  intros H. apply parse_args_ok in H as (_ & parser & opts & _ & _ & H).
  apply finish_options_project in H as (project & _ & H).
  eexists. split; [exact H|]. apply rstrip_no_trailing.
Qed.

End CliFacts.

(** ** What [parse_args] of [argparse] went through when it returns *)

Section Parsed.
Import argparse Loop.
Variable p : ArgumentParser.

Lemma parsed_options_ok (w : World) (args : list string)
    (opts : gmap string value) :
  parsed_options p w args = Ok opts ->
  exists toks st,
    classified_args p w args = Ok toks
    /\ Forall (wf_token p) toks
    /\ well_classified toks = true
    /\ consume p (initial_state p) toks = Ok st
    /\ parse_state p w args = Ok st
    /\ missing_required p st = []
    /\ extras st = []
    /\ opts = namespace st.
Proof.
  unfold parsed_options, argparse.parse_args, parse_known_args. intros H.
  apply bind_ok in H as ([ns argv] & H & Hargv).
  apply bind_ok in H as (st & Hst & H).
  destruct (missing_required p st) eqn:Hreq; [|discriminate].
  injection H as <- <-.
  destruct (extras st) eqn:Hextras; [|discriminate]. injection Hargv as <-.
  pose proof Hst as Hst'. unfold parse_state in Hst'.
  apply bind_ok in Hst' as (toks & Htoks & Hconsume).
  exists toks, st. unfold classified_args in Htoks.
  apply bind_ok in Htoks as (l & Hl' & Hl).
  repeat split; auto.
  - unfold classified_args. now rewrite Hl'.
  - now apply classify_wf in Hl.
  - now apply classify_well_classified in Hl.
Qed.

(** A required action of an accepted argument list was taken. *)
Lemma required_was_seen (st : pstate) (a : Action) :
  missing_required p st = [] ->
  a ∈ actions p -> required a = true ->
  a ∈ seen_actions st.
Proof.
  intros H Ha Hreq.
  destruct (decide (a ∈ seen_actions st)) as [|Hn]; [assumption|exfalso].
  assert (Hin : In a (missing_required p st)).
  { unfold missing_required. apply filter_In. split.
    - now apply list_elem_of_In.
    - rewrite Hreq. simpl. now rewrite bool_decide_eq_false_2. }
  now rewrite H in Hin.
Qed.

(** An argument string that does not begin with [-] is an argument. *)
Lemma classify_first_argument (first : string) (rest : list string)
    (toks : list ctoken) :
  Str.startswith first "-" = false ->
  classify p (first :: rest) = Ok toks ->
  exists more, toks = (first, PatA) :: more.
Proof.
  intros Hfirst H. cbn [classify] in H.
  assert (Hopt : parse_optional p first = Ok None).
  { destruct first as [|c tail]; [reflexivity|].
    destruct (Ascii.eqb_spec c "-") as [->|Hne].
    - destruct tail; discriminate Hfirst.
    - unfold parse_optional.
      now rewrite (proj2 (Ascii.eqb_neq _ _) Hne). }
  assert (Hdash : String.eqb first "--" = false).
  { destruct (String.eqb_spec first "--") as [->|]; [discriminate|reflexivity]. }
  rewrite Hdash, Hopt in H. simpl in H.
  destruct (classify p rest) as [more| |]; [|discriminate..].
  injection H as <-. eauto.
Qed.

(** How the namespace starts: a destination that an action sets by
    default keeps that value when actions are added after it. *)
Lemma fold_left_keeps {A} (f : gmap string value -> A -> gmap string value)
    (l : list A) (ns : gmap string value) (k : string) (v : value) :
  (forall ns x, ns !! k = Some v -> f ns x !! k = Some v) ->
  ns !! k = Some v ->
  fold_left f l ns !! k = Some v.
Proof.
  intros Hf. revert ns. induction l as [|x l IH]; intros ns H; [exact H|].
  simpl. apply IH. now apply Hf.
Qed.

Lemma initial_namespace_keeps (core : ArgumentParser) (new : list Action)
    (k : string) (v : value) :
  actions p = actions core ++ new ->
  initial_namespace
    {| actions := actions core; mutually_exclusive_groups := [];
       parser_defaults := [] |} !! k = Some v ->
  initial_namespace p !! k = Some v.
Proof.
  intros Hactions. unfold initial_namespace. cbn [parser_defaults actions fold_left].
  rewrite Hactions, fold_left_app. intros H.
  apply fold_left_keeps.
  { intros ns kv Hns. destruct (ns !! kv.1) eqn:E; [exact Hns|].
    rewrite lookup_insert_ne; [exact Hns|]. intros <-. congruence. }
  apply fold_left_keeps; [|exact H].
  intros ns a Hns. destruct (String.eqb (dest a) SUPPRESS); [exact Hns|].
  destruct (ns !! dest a) eqn:E; [exact Hns|].
  destruct (bool_decide (default a = VStr SUPPRESS)); [exact Hns|].
  rewrite lookup_insert_ne; [exact Hns|]. intros <-. congruence.
Qed.

End Parsed.

(** ** The parser of [cli.py] and the options of the extensions *)

Section Extended.
Import argparse Loop.
Variable license_choices : list string.
Variable p : ArgumentParser.

Local Abbreviation core := (default_parser license_choices).

Hypothesis p_extends : extends core p.

Lemma core_actions :
  actions core
  = [help_action; project_action; package_action; description_action;
     url_action; license_action license_choices; force_action; update_action;
     pretend_action; list_actions_action; version_action; quiet_action].
Proof. reflexivity. Qed.

Lemma core_groups :
  mutually_exclusive_groups core = [[pretend_action; list_actions_action]].
Proof. reflexivity. Qed.

Lemma core_action_cases (b : Action) :
  b ∈ actions core ->
  b = help_action \/ b = project_action \/ b = package_action
  \/ b = description_action \/ b = url_action
  \/ b = license_action license_choices \/ b = force_action
  \/ b = update_action \/ b = pretend_action \/ b = list_actions_action
  \/ b = version_action \/ b = quiet_action.
Proof.
  rewrite core_actions. rewrite !elem_of_cons, elem_of_nil. tauto.
Qed.

(** No two actions of [cli.py] write to the same destination. *)
Lemma core_dest_unique (a b : Action) :
  a ∈ actions core -> b ∈ actions core -> dest a = dest b -> a = b.
Proof.
  intros Ha Hb.
  apply core_action_cases in Ha. apply core_action_cases in Hb.
  repeat (destruct Ha as [->|Ha]); try subst a;
    repeat (destruct Hb as [->|Hb]); try subst b;
    intros E; solve [reflexivity | discriminate E].
Qed.

Lemma core_in_extended (a : Action) : a ∈ actions core -> a ∈ actions p.
Proof.
  destruct p_extends as (new & groups & -> & _). intros Ha.
  apply elem_of_app. now left.
Qed.

(** No action of an extension writes to the destination of an action of
    [cli.py]. *)
Lemma extended_dest_unique (a b : Action) :
  a ∈ actions core -> b ∈ actions p -> dest b = dest a -> b = a.
Proof.
  destruct p_extends as (new & groups & -> & _ & Hnew). intros Ha Hb E.
  apply elem_of_app in Hb as [Hb|Hb].
  - now apply core_dest_unique.
  - exfalso. rewrite Forall_forall in Hnew. apply (Hnew b Hb).
    rewrite E. apply list_elem_of_In, in_map. now apply list_elem_of_In.
Qed.

Lemma extended_conflicts (a c : Action) :
  c ∈ action_conflicts core a -> c ∈ action_conflicts p a.
Proof.
  destruct p_extends as (new & groups & _ & Hgroups & _).
  unfold action_conflicts. rewrite Hgroups, flat_map_app. intros H.
  apply elem_of_app. now left.
Qed.

Lemma extended_conflicts_pretend :
  list_actions_action ∈ action_conflicts p pretend_action.
Proof.
  apply extended_conflicts.
  assert (action_conflicts core pretend_action = [list_actions_action]) as ->
    by reflexivity.
  left.
Qed.

Lemma extended_conflicts_list_actions :
  pretend_action ∈ action_conflicts p list_actions_action.
Proof.
  apply extended_conflicts.
  assert (action_conflicts core list_actions_action = [pretend_action]) as ->
    by reflexivity.
  left.
Qed.

(** The defaults of the options of [cli.py] are those [cli.py] gives. *)
Lemma extended_initial_namespace (k : string) (v : value) :
  ({[ "project" := VNone; "package" := VNone; "description" := VNone;
      "url" := VNone; "license" := VStr "none"; "force" := VBool false;
      "update" := VBool false; "pretend" := VBool false;
      "command" := VCommand CmdRunScaffold; "log_level" := VStr "INFO" ]}
   : gmap string value) !! k = Some v ->
  initial_namespace p !! k = Some v.
Proof.
  destruct p_extends as (new & groups & Hactions & _).
  intros H. apply (initial_namespace_keeps p core new k v Hactions).
  rewrite <- H. reflexivity.
Qed.

(** The project name is the first positional. *)
Lemma extended_positionals :
  exists ps,
    positionals (initial_state p) = project_action :: ps
    /\ Forall (fun b => b ∈ actions p /\ b <> project_action) ps.
Proof.
  destruct p_extends as (new & groups & Hactions & _ & Hnew).
  exists (List.filter (fun a => bool_decide (option_strings a = [])) new).
  split.
  - unfold initial_state. cbn [positionals].
    rewrite Hactions, List.filter_app.
    assert (List.filter (fun a => bool_decide (option_strings a = []))
              (actions core) = [project_action]) as -> by reflexivity.
    reflexivity.
  - apply Forall_forall. intros b Hb.
    apply list_elem_of_In, filter_In in Hb as [Hb _].
    apply list_elem_of_In in Hb. split.
    + rewrite Hactions. apply elem_of_app. now right.
    + intros ->. rewrite Forall_forall in Hnew. apply (Hnew _ Hb).
      rewrite core_actions. simpl. right. left.
Qed.

(** *** Three invariants of the parsing state *)

(** An action of [cli.py] that was not seen left its destination at the
    default. *)
Lemma unseen_keeps_default (a : Action) (toks : list ctoken) (st : pstate) :
  a ∈ actions core ->
  Forall (wf_token p) toks ->
  consume p (initial_state p) toks = Ok st ->
  a ∈ seen_actions st
  \/ namespace st !! dest a = initial_namespace p !! dest a.
Proof.
  intros Ha Hwf H.
  set (Inv := fun st : pstate =>
         a ∈ seen_actions st
         \/ namespace st !! dest a = initial_namespace p !! dest a).
  apply (consume_invariant p Inv) in H; auto.
  - now destruct H.
  - intros st0 st1 b args Hb HI Htake.
    apply take_action_ok in Htake
      as (v & stored & _ & _ & Hns & Hseen & _).
    unfold Inv. rewrite Hseen, Hns.
    destruct (decide (b = a)) as [->|Hne]; [left; left|].
    destruct HI as [HI|HI]; [left; now right|right].
    rewrite lookup_insert_ne; [exact HI|].
    intros E. apply Hne. now apply extended_dest_unique.
  - apply initial_state_pos_ok.
  - now right.
Qed.

(** The two members of the exclusive group were not both taken. *)
Lemma group_members_exclusive (toks : list ctoken) (st : pstate) :
  Forall (wf_token p) toks ->
  consume p (initial_state p) toks = Ok st ->
  ~ (pretend_action ∈ seen_non_default_actions st
     /\ list_actions_action ∈ seen_non_default_actions st).
Proof.
  intros Hwf H.
  set (Inv := fun st : pstate =>
         ~ (pretend_action ∈ seen_non_default_actions st
            /\ list_actions_action ∈ seen_non_default_actions st)).
  apply (consume_invariant p Inv) in H; auto.
  - now destruct H.
  - intros st0 st1 b args Hb HI Htake.
    apply take_action_ok in Htake
      as (v & stored & _ & _ & _ & _ & Hseen & _ & _ & Hconf).
    unfold Inv. rewrite Hseen. intros [Hp Hl].
    destruct (decide (b = pretend_action)) as [->|Hnp].
    { apply (Hconf list_actions_action); [|exact Hl].
      apply extended_conflicts_pretend. }
    destruct (decide (b = list_actions_action)) as [->|Hnl].
    { apply (Hconf pretend_action); [|exact Hp].
      apply extended_conflicts_list_actions. }
    apply HI. apply elem_of_cons in Hp as [Hp|Hp]; [congruence|].
    apply elem_of_cons in Hl as [Hl|Hl]; [congruence|]. now split.
  - apply initial_state_pos_ok.
  - unfold Inv. simpl. intros [Hp _]. now apply elem_of_nil in Hp.
Qed.

(** A flag of the exclusive group is active only if its action was
    taken. *)
Lemma active_flag_was_taken (toks : list ctoken) (st : pstate) :
  Forall (wf_token p) toks ->
  consume p (initial_state p) toks = Ok st ->
  (namespace st !! "pretend" = Some (VBool true) ->
   pretend_action ∈ seen_non_default_actions st)
  /\ (namespace st !! "command" = Some (VCommand CmdListActions) ->
      list_actions_action ∈ seen_non_default_actions st).
Proof.
  intros Hwf H.
  set (Inv := fun st : pstate =>
         (namespace st !! "pretend" = Some (VBool true) ->
          pretend_action ∈ seen_non_default_actions st)
         /\ (namespace st !! "command" = Some (VCommand CmdListActions) ->
             list_actions_action ∈ seen_non_default_actions st)).
  apply (consume_invariant p Inv) in H; auto.
  - now destruct H.
  - intros st0 st1 b args Hb [HIp HIl] Htake.
    apply take_action_ok in Htake
      as (v & stored & _ & _ & Hns & _ & Hseen & _).
    unfold Inv. rewrite Hseen, Hns. split; intros Hflag.
    + destruct (decide (dest b = "pretend")) as [E|Hne].
      * assert (b = pretend_action) as ->; [|left].
        apply extended_dest_unique; auto.
        rewrite core_actions. repeat constructor.
      * rewrite lookup_insert_ne in Hflag by exact Hne. right. auto.
    + destruct (decide (dest b = "command")) as [E|Hne].
      * assert (b = list_actions_action) as ->; [|left].
        apply extended_dest_unique; auto.
        rewrite core_actions. repeat constructor.
      * rewrite lookup_insert_ne in Hflag by exact Hne. right. auto.
  - apply initial_state_pos_ok.
  - unfold Inv. cbn [namespace initial_state].
    rewrite (extended_initial_namespace "pretend" (VBool false))
      by reflexivity.
    rewrite (extended_initial_namespace "command" (VCommand CmdRunScaffold))
      by reflexivity.
    split; discriminate.
Qed.

End Extended.

(** ** Extenders that add flags *)

Section FlagExtenders.
Import argparse Loop.
Variable core : ArgumentParser.

Lemma extends_refl : extends core core.
Proof.
  exists [], []. rewrite !app_nil_r. repeat split. constructor.
Qed.

(** [add_argument] with a destination of its own keeps what [core] has. *)
Lemma extends_add_argument (p : ArgumentParser) (flags : list string)
    (k : string) (kind : action_kind) (default : option value)
    (choices : option (list string)) :
  k ∉ map dest (actions core) ->
  extends core p ->
  extends core (add_argument flags k kind default choices p).
Proof.
  intros Hk (new & groups & Hactions & Hgroups & Hnew).
  exists (new ++ [make_action p flags k kind default choices]), groups.
  cbn [add_argument actions mutually_exclusive_groups].
  rewrite Hactions, app_assoc. repeat split; auto.
  apply Forall_app. split; [exact Hnew|]. constructor; [exact Hk|constructor].
Qed.

(** Extensions that register a flag each leave the options of [core] as
    they are. *)
Lemma flag_extenders_extend
    (extenders : list (ArgumentParser -> outcome ArgumentParser))
    (p p' : ArgumentParser) :
  Forall (fun ext => exists flag name, ext = flag_extender flag name)
         extenders ->
  "extensions" ∉ map dest (actions core) ->
  extends core p ->
  augment_all extenders p = Ok p' ->
  extends core p'.
Proof.
  intros Hflags Hk. revert p.
  induction Hflags as [|ext extenders (flag & name & ->) _ IH]; intros p Hp.
  - now intros [= <-].
  - cbn [augment_all]. unfold flag_extender at 1.
    change (augment_all extenders
              (add_argument [flag] "extensions" (AppendConst (VObject name))
                 None None p) = Ok p' -> extends core p').
    apply IH. now apply extends_add_argument.
Qed.

End FlagExtenders.

(** ** Options and commands (C6, C7, C8, C9) *)

Section Commands.
Import Loop.
Variable license_choices : list string.
Variable cli_extenders
  : list (argparse.ArgumentParser -> outcome argparse.ArgumentParser).
Variable action : Type.
Variable discover_actions : value -> list effect * outcome (list action).
Variable get_id : action -> string.
Variable SPACING : string.
Variable create_project : gmap string value -> list effect * outcome unit.

Local Abbreviation core := (default_parser license_choices).

(** C6: the [project] value returned is the project name given among the
    argument strings, that is the first argument string that is neither
    an option string nor the argument of one, with its trailing path
    separators removed: a name made of [base] and any number of
    separators gives [base], and a name that does not end with a
    separator is returned as it is. When the first argument string does
    not begin with [-], it is the name. The extensions may have added
    options of their own to the parser. *)
Theorem project_trailing_separators_stripped (w : World) (args : list string)
    (p : argparse.ArgumentParser) (r : gmap string value) :
  cli_parser license_choices cli_extenders = Ok p ->
  extends core p ->
  parse_args license_choices cli_extenders w args = Ok r ->
  exists toks name,
    argparse.classified_args p w (with_profile w args) = Ok toks
    /\ head (positional_arguments p toks) = Some name
    /\ r !! "project" = Some (VStr (Str.rstrip posixpath.sep name))
    /\ (forall base n,
          name = base +:+ Str.repeat_char posixpath.sep n ->
          Str.endswith_char base posixpath.sep = false ->
          r !! "project" = Some (VStr base))
    /\ (Str.endswith_char name posixpath.sep = false ->
        r !! "project" = Some (VStr name))
    /\ (forall first rest,
          argparse.read_args_from_files w (recursion_limit w)
            (with_profile w args) = Ok (first :: rest) ->
          Str.startswith first "-" = false ->
          name = first).
Proof.
  intros Hp Hext H.
  apply parse_args_ok in H as (_ & p' & opts & Hp' & Hparsed & Hfinish).
  rewrite Hp in Hp'. injection Hp' as <-.
  apply parsed_options_ok in Hparsed
    as (toks & st & Htoks & Hwf & Hwell & Hconsume & _ & Hreq & _ & ->).
  destruct (extended_positionals license_choices p Hext) as (ps & Hpos & Hps).
  assert (Hcore : project_action ∈ argparse.actions core)
    by (rewrite core_actions; repeat constructor).
  assert (Hseen : project_action ∈ argparse.seen_actions st).
  { apply (required_was_seen p); auto.
    now apply (core_in_extended license_choices p Hext). }
  destruct (consume_first_positional p project_action
              (fun b Hb E =>
                 extended_dest_unique license_choices p Hext project_action b
                   Hcore Hb E)
              eq_refl eq_refl eq_refl eq_refl toks (argparse.initial_state p)
              st ps Hwf Hwell Hpos Hps) as (name & Hhead & Hns); auto.
  { simpl. apply not_elem_of_nil. }
  apply finish_options_project in Hfinish as (name' & Hname' & Hr).
  assert (name' = name) as -> by (simpl in Hns; congruence).
  exists toks, name. repeat split; try assumption.
  - intros base n -> Hbase. rewrite Hr. now rewrite rstrip_append_repeat.
  - intros Hend. rewrite Hr. now rewrite rstrip_unchanged.
  - intros first rest Hread Hfirst.
    unfold argparse.classified_args in Htoks. rewrite Hread in Htoks.
    apply (classify_first_argument p first rest toks Hfirst) in Htoks
      as (more & ->).
    simpl in Hhead. congruence.
Qed.

(** C7: no key of the returned record is bound to [None]; an option
    without default ([package], [description], [url]) that none of the
    argument strings supplies, alone or joined to other flags, is not a key
    of the record. The extensions may have added options of their own to
    the parser. *)
Theorem absent_options_are_pruned (w : World) (args : list string)
    (r : gmap string value) :
  parse_args license_choices cli_extenders w args = Ok r ->
  (forall k, r !! k <> Some VNone)
  /\ (forall p toks a,
        cli_parser license_choices cli_extenders = Ok p ->
        extends core p ->
        argparse.classified_args p w (with_profile w args) = Ok toks ->
        a ∈ [package_action; description_action; url_action] ->
        (forall s tup, (s, argparse.PatO tup) ∈ toks ->
                       a ∉ option_actions p tup) ->
        r !! argparse.dest a = None).
Proof.
  intros H. apply parse_args_ok in H as (_ & p' & opts & Hp' & Hparsed & Hfinish).
  split; [intros k; now apply finish_options_no_none with (opts := opts)|].
  intros p toks a Hp Hext Htoks Ha Habsent.
  rewrite Hp in Hp'. injection Hp' as <-.
  apply parsed_options_ok in Hparsed
    as (toks' & st & Htoks' & Hwf & _ & Hconsume & _ & _ & _ & ->).
  assert (toks' = toks) as -> by congruence.
  assert (Hcases : a = package_action \/ a = description_action
                   \/ a = url_action).
  { rewrite !elem_of_cons in Ha.
    destruct Ha as [->|[->|[->|Ha]]]; auto. now apply elem_of_nil in Ha. }
  assert (Hcore : a ∈ argparse.actions core).
  { rewrite core_actions.
    destruct Hcases as [->|[->| ->]]; repeat constructor. }
  assert (Hunseen : a ∉ argparse.seen_actions st).
  { intros Hseen.
    destruct (consume_seen p toks _ st a Hconsume Hseen)
      as [Hs|[Hs|(s & tup & Hin & Hs)]].
    - simpl in Hs. now apply elem_of_nil in Hs.
    - simpl in Hs. apply list_elem_of_In, filter_In in Hs as [_ Hs].
      destruct Hcases as [->|[->| ->]]; discriminate Hs.
    - exact (Habsent s tup Hin Hs). }
  destruct (unseen_keeps_default license_choices p Hext a toks st Hcore Hwf
              Hconsume) as [Hseen|Hns]; [contradiction|].
  assert (Hnone : argparse.namespace st !! argparse.dest a = Some VNone).
  { rewrite Hns. apply (extended_initial_namespace license_choices p Hext).
    destruct Hcases as [->|[->| ->]]; reflexivity. }
  destruct (r !! argparse.dest a) as [v|] eqn:Hr; [|reflexivity].
  assert (Hk : argparse.dest a <> "project" /\ argparse.dest a <> "log_level")
    by (destruct Hcases as [->|[->| ->]]; split; discriminate).
  apply (finish_options_other _ _ _ _ Hfinish (proj1 Hk) (proj2 Hk)) in Hr
    as [Hv Hne].
  congruence.
Qed.

(** C8: no returned record has both the [pretend] flag and the
    [list_actions] command active; and when the argument strings contain
    an option string for each of the two, [parse_args] does not return,
    so that [main] stops with no effect. The extensions may have added
    options of their own to the parser. *)
Theorem pretend_and_list_actions_exclusive (w : World) (args : list string)
    (p : argparse.ArgumentParser) :
  cli_parser license_choices cli_extenders = Ok p ->
  extends core p ->
  (forall r,
     parse_args license_choices cli_extenders w args = Ok r ->
     ~ (r !! "pretend" = Some (VBool true)
        /\ r !! "command" = Some (VCommand CmdListActions)))
  /\ (forall toks,
        argparse.classified_args p w (with_profile w args) = Ok toks ->
        supplies pretend_action toks ->
        supplies list_actions_action toks ->
        failed (parse_args license_choices cli_extenders w args)
        /\ fst (main license_choices cli_extenders action discover_actions
                     get_id SPACING create_project w args) = []).
Proof.
  intros Hp Hext. split.
  - intros r H [Hpr Hl].
    apply parse_args_ok in H as (_ & p' & opts & Hp' & Hparsed & Hfinish).
    rewrite Hp in Hp'. injection Hp' as <-.
    apply parsed_options_ok in Hparsed
      as (toks & st & _ & Hwf & _ & Hconsume & _ & _ & _ & ->).
    apply (finish_options_other _ _ _ _ Hfinish) in Hpr as [Hpr _];
      [|discriminate..].
    apply (finish_options_other _ _ _ _ Hfinish) in Hl as [Hl _];
      [|discriminate..].
    destruct (active_flag_was_taken license_choices p Hext toks st Hwf
                Hconsume) as [Hpretend Hlist].
    apply (group_members_exclusive license_choices p Hext toks st Hwf
             Hconsume).
    split; auto.
  - intros toks Htoks Hpr Hl.
    assert (Hfail : failed (parse_args license_choices cli_extenders w args)).
    { destruct (parse_args license_choices cli_extenders w args) as [r| |]
        eqn:H; [|exact I..].
      apply parse_args_ok in H as (_ & p' & opts & Hp' & Hparsed & _).
      rewrite Hp in Hp'. injection Hp' as <-.
      apply parsed_options_ok in Hparsed
        as (toks' & st & Htoks' & Hwf & _ & Hconsume & _).
      assert (toks' = toks) as -> by congruence.
      apply (group_members_exclusive license_choices p Hext toks st Hwf
               Hconsume).
      pose proof (initial_state_pos_ok p) as Hpos.
      split;
        eapply (consume_takes_options p); eauto. }
    split; [exact Hfail|].
    unfold main.
    destruct (parse_args license_choices cli_extenders w args);
      [contradiction|reflexivity..].
Qed.

(** C9: [list_actions] does what resolving the plan does and then only
    prints: the heading, then the identifier of every resolved action in
    the order of the plan. It creates no file or directory and runs no
    process of its own. *)
Theorem list_actions_only_prints (opts : gmap string value) :
  let resolved := discover_actions (get_extensions opts) in
  let run := list_actions action discover_actions get_id SPACING opts in
  exists printed,
    fst run = fst resolved ++ printed
    /\ forallb is_print printed = true
    /\ List.filter (fun e => negb (is_print e)) (fst run)
       = List.filter (fun e => negb (is_print e)) (fst resolved)
    /\ match snd resolved with
       | Ok plan =>
           printed
           = Print ("Planned Actions:" +:+ String "010" "")
               :: map (fun a => Print (SPACING +:+ get_id a)) plan
           /\ snd run = Ok tt
       | Exit status why => printed = [] /\ snd run = Exit status why
       | Raise e => printed = [] /\ snd run = Raise e
       end.
Proof.
  intros resolved run. subst resolved run. unfold list_actions.
  destruct (discover_actions (get_extensions opts)) as [resolving [plan| |]];
    simpl.
  - eexists. split; [reflexivity|].
    assert (Hprints : forallb is_print
                        (map (fun a => Print (SPACING +:+ get_id a)) plan)
                      = true).
    { induction plan as [|a plan IH]; [reflexivity|exact IH]. }
    split; [exact Hprints|]. split; [|now split].
    rewrite List.filter_app. simpl.
    assert (List.filter (fun e => negb (is_print e))
              (map (fun a => Print (SPACING +:+ get_id a)) plan) = []) as ->.
    { induction plan as [|a plan IH]; [reflexivity|exact (IH (Hprints))]. }
    now rewrite app_nil_r.
  - exists []. rewrite app_nil_r. repeat split.
  - exists []. rewrite app_nil_r. repeat split.
Qed.

End Commands.

(** ** The profile file and the explicit arguments (C1) *)

Lemma with_profile_cases (w : World) (args : list string) :
  with_profile w args = args
  \/ (getenv w "PYSCAFFOLD_PROFILE" <> Some "none"
      /\ posixpath.exists_ w (get_args_file w (getenv w "PYSCAFFOLD_PROFILE"))
         = true
      /\ with_profile w args
         = ("@" +:+ get_args_file w (getenv w "PYSCAFFOLD_PROFILE")) :: args).
Proof.
  unfold with_profile.
  destruct (bool_decide_reflect (getenv w "PYSCAFFOLD_PROFILE" <> Some "none"))
    as [Hp|Hp]; [|now left].
  destruct (posixpath.exists_ w _) eqn:E; [right|left]; auto.
Qed.

(** What [finish_options] leaves at a key depends on the value the parser
    left there only. *)
Lemma finish_options_lookup_same (opts1 opts2 r1 r2 : gmap string value)
    (k : string) :
  finish_options opts1 = Ok r1 ->
  finish_options opts2 = Ok r2 ->
  opts1 !! k = opts2 !! k ->
  r1 !! k = r2 !! k.
Proof.
  intros H1 H2 Hk.
  apply finish_options_ok in H1 as (p1 & n1 & l1 & Hp1 & Hn1 & Hl1 & ->).
  apply finish_options_ok in H2 as (p2 & n2 & l2 & Hp2 & Hn2 & Hl2 & ->).
  apply option_eq. intros v. rewrite !map_lookup_filter_Some.
  destruct (decide (k = "log_level")) as [->|Hlog].
  - rewrite !lookup_insert_eq.
    assert (n1 = n2) as -> by congruence.
    assert (l1 = l2) as -> by congruence. reflexivity.
  - rewrite !(lookup_insert_ne _ "log_level") by congruence.
    destruct (decide (k = "project")) as [->|Hproj].
    + rewrite !lookup_insert_eq.
      assert (p1 = p2) as -> by congruence. reflexivity.
    + rewrite !lookup_insert_ne by congruence. now rewrite Hk.
Qed.

Section ProfileOverride.
Import argparse Loop.
Variable license_choices : list string.
Variable p : ArgumentParser.

Local Abbreviation core := (default_parser license_choices).

Hypothesis p_extends : extends core p.
Hypothesis p_positionals : positionals (initial_state p) = [project_action].

Lemma classified_args_app (w : World) (l1 l2 : list string)
    (toks : list ctoken) :
  classified_args p w (l1 ++ l2) = Ok toks ->
  exists x y,
    read_args_from_files w (recursion_limit w) l1 = Ok x
    /\ read_args_from_files w (recursion_limit w) l2 = Ok y
    /\ classify p (x ++ y) = Ok toks.
Proof.
  unfold classified_args. rewrite read_args_from_files_app. intros H.
  apply bind_ok in H as (l & Hl & Hc).
  apply bind_ok in Hl as (x & Hx & Hl).
  apply bind_ok in Hl as (y & Hy & Hl). injection Hl as <-. eauto.
Qed.

Lemma project_in_extended : project_action ∈ actions p.
Proof.
  apply (core_in_extended license_choices p p_extends).
  rewrite core_actions. repeat constructor.
Qed.

Lemma initial_pos_other (a : Action) :
  option_strings a <> [] -> pos_other p a (initial_state p).
Proof.
  intros Ha. unfold pos_other. rewrite p_positionals.
  constructor; [|constructor]. split; [apply project_in_extended|].
  intros <-. now apply Ha.
Qed.

Lemma not_seen_initially (a : Action) (st : pstate) :
  view a st = view a (initial_state p) -> a ∉ seen_actions st.
Proof.
  unfold view. intros H Ha.
  assert (Hb : bool_decide (a ∈ seen_actions st)
               = bool_decide (a ∈ seen_actions (initial_state p)))
    by congruence.
  rewrite (bool_decide_eq_true_2 _ Ha) in Hb.
  rewrite bool_decide_eq_false_2 in Hb; [discriminate|].
  simpl. apply not_elem_of_nil.
Qed.

(** An option that one of the explicit argument strings names has the
    same value whether the arguments of the profile file come in front of
    the explicit ones or not. *)
Lemma parsed_options_override (w : World) (pf : string) (args : list string)
    (a : Action) (toks_e : list ctoken) (opts opts_e : gmap string value) :
  a ∈ actions core -> option_strings a <> [] ->
  (forall c, kind a <> AppendConst c) ->
  classified_args p w args = Ok toks_e ->
  supplies a toks_e ->
  parsed_options p w (pf :: args) = Ok opts ->
  parsed_options p w args = Ok opts_e ->
  opts !! dest a = opts_e !! dest a.
Proof.
  intros Ha Hopts Hkind Hce Hsup H He.
  assert (Hdest : forall b, b ∈ actions p -> dest b = dest a -> b = a)
    by (intros b Hb E;
        now apply (extended_dest_unique license_choices p p_extends)).
  pose proof (initial_pos_other a Hopts) as Hpos0.
  apply parsed_options_ok in H
    as (toks & st & Htoks & Hwf & _ & Hrun & _ & _ & Hextras & ->).
  apply parsed_options_ok in He
    as (ce & st_e & Hce' & Hwfe & _ & Hrune & _ & Hreq & _ & ->).
  assert (ce = toks_e) as -> by congruence. clear Hce'.
  assert (Hseen : a ∈ seen_actions st_e).
  { eapply (consume_takes_options p); eauto. apply initial_state_pos_ok. }
  pose proof (supplies_has_option a toks_e Hsup) as Hhas.
  change (pf :: args) with ([pf] ++ args) in Htoks.
  apply classified_args_app in Htoks as (lp & le & Hlp & Hle & Htoks).
  unfold classified_args in Hce. rewrite Hle in Hce.
  change (classify p le = Ok toks_e) in Hce.
  assert (Hview : view a st = view a st_e ->
                  namespace st !! dest a = namespace st_e !! dest a)
    by (unfold view; now intros [= -> _]).
  apply classify_app in Htoks
    as [(cp & ce' & Hcp & Hce' & ->)|(c1 & d & ts & ->)].
  - rewrite Hce in Hce'. injection Hce' as <-.
    apply Forall_app in Hwf as [_ Hwf].
    destruct (consume_app_split p a Hdest cp toks_e _ _ Hhas Hpos0 Hrun)
      as (st_m & Hposm & [Hm|(v & ce' & -> & Hm)]).
    + destruct (consume_two_runs p a Hdest Hkind toks_e _ _ _ _ Hwf Hpos0
                  Hposm Hrune Hm) as [[Hv _]|[Hv _]].
      * now apply Hview.
      * now apply not_seen_initially in Hv.
    + rewrite consume_unfold, Hhas in Hrune.
      apply bind_ok in Hrune as ([m rest] & Hmove & Hrune).
      simpl in Hmove. injection Hmove as <- <-.
      apply bind_ok in Hrune as (st1 & A1 & Hrune).
      destruct (apply_move_view p a Hdest _ _ (MPositional v)
                  ltac:(discriminate) Hpos0 A1) as [Hv1 Hpos1].
      apply Forall_cons in Hwfe as [_ Hwfe].
      destruct (consume_two_runs p a Hdest Hkind ce' _ _ _ _ Hwfe Hpos1
                  Hposm Hrune Hm) as [[Hv _]|[Hv _]].
      * now apply Hview.
      * rewrite Hv1 in Hv. now apply not_seen_initially in Hv.
  - exfalso.
    assert (Hlen : length (ts ++ le) <= 1).
    { apply (consume_dash_no_extras p c1 d (ts ++ le) (initial_state p) st);
        [now rewrite p_positionals|exact Hrun|exact Hextras]. }
    rewrite length_app in Hlen.
    assert (Hshort : length toks_e <= 1)
      by (rewrite (classify_length _ _ _ Hce); lia).
    apply (consume_one_string p toks_e (initial_state p) st_e a project_action
             Hdest Hwfe Hshort eq_refl Hpos0 eq_refl Hrune Hseen).
    apply (required_was_seen p); auto. apply project_in_extended.
Qed.

End ProfileOverride.

Section ExplicitWins.
Import Loop.
Variable license_choices : list string.
Variable cli_extenders
  : list (argparse.ArgumentParser -> outcome argparse.ArgumentParser).

Local Abbreviation core := (default_parser license_choices).


End ExplicitWins.

(** ** The theorems at work on the sample environments *)

Section Samples.
Import Loop.

Lemma returned_ok {A} (m : outcome A) :
  returned m = true -> exists a, m = Ok a.
Proof. destruct m as [a| |]; [eauto|discriminate..]. Qed.

(** The sample extenders add three flags after the options of [cli.py]. *)
Lemma sample_parser_extends (p : argparse.ArgumentParser) :
  cli_parser sample_licenses sample_extenders = Ok p ->
  extends (default_parser sample_licenses) p.
Proof.
  rewrite cli_parser_unfold. unfold sample_extenders.
  apply flag_extenders_extend.
  - repeat constructor; eexists _, _; reflexivity.
  - rewrite core_actions. intros H. apply list_elem_of_In in H. simpl in H.
    repeat (destruct H as [H|H]; [discriminate H|]). exact H.
  - apply extends_refl.
Qed.

Example get_config_dir_sample :
  get_config_dir plain_world = "/home/user/.config/pyscaffold"
  /\ get_args_file plain_world None
     = "/home/user/.config/pyscaffold/default.args"
  /\ get_args_file plain_world (Some "foo")
     = "/home/user/.config/pyscaffold/foo.args".
Proof. repeat split; vm_compute; reflexivity. Qed.

Lemma profile_none_loads_no_file_witness :
  getenv no_profile_world "PYSCAFFOLD_PROFILE" = Some "none"
  /\ with_profile no_profile_world ["my-project"] = ["my-project"]
  /\ parse_args sample_licenses sample_extenders no_profile_world
       ["my-project"]
     = parse_explicit_args sample_licenses sample_extenders no_profile_world
         ["my-project"].
Proof.
  split; [vm_compute; reflexivity|].
  apply (profile_none_loads_no_file sample_licenses sample_extenders
           no_profile_world ["my-project"]).
  vm_compute; reflexivity.
Defined.

Lemma missing_profile_file_ignored_witness :
  getenv plain_world "PYSCAFFOLD_PROFILE" <> Some "none"
  /\ with_profile plain_world ["my-project"] = ["my-project"]
  /\ parse_args sample_licenses sample_extenders plain_world ["my-project"]
     = parse_explicit_args sample_licenses sample_extenders plain_world
         ["my-project"].
Proof.
  split; [vm_compute; discriminate|].
  apply (missing_profile_file_ignored sample_licenses sample_extenders
           plain_world ["my-project"]).
  - vm_compute; discriminate.
  - vm_compute; reflexivity.
Defined.

(** The project name [/] is accepted and gives an empty [project]. *)
Lemma project_can_be_empty :
  exists r,
    parse_args sample_licenses sample_extenders plain_world ["/"] = Ok r
    /\ r !! "project" = Some (VStr "").
Proof.
  assert (H : returned_value "project"
                (parse_args sample_licenses sample_extenders plain_world ["/"])
              = Some (VStr "")) by (vm_compute; reflexivity).
  destruct (parse_args sample_licenses sample_extenders plain_world ["/"])
    as [r| |]; [|discriminate..].
  exists r. split; [reflexivity|exact H].
Qed.

Lemma project_has_no_trailing_separator_witness :
  exists r,
    parse_args sample_licenses sample_extenders plain_world
      ["my-project/"; "--with-tox"] = Ok r
    /\ exists project,
         r !! "project" = Some (VStr project)
         /\ Str.endswith_char project posixpath.sep = false.
Proof.
  destruct (returned_ok (parse_args sample_licenses sample_extenders
                           plain_world ["my-project/"; "--with-tox"]))
    as [r Hr]; [vm_compute; reflexivity|].
  exists r. split; [exact Hr|].
  exact (project_has_no_trailing_separator sample_licenses sample_extenders
           plain_world ["my-project/"; "--with-tox"] r Hr).
Defined.

Lemma project_trailing_separators_stripped_witness :
  exists p r,
    cli_parser sample_licenses sample_extenders = Ok p
    /\ extends (default_parser sample_licenses) p
    /\ parse_args sample_licenses sample_extenders plain_world
         ["--with-tox"; "my-project//"] = Ok r
    /\ exists toks name,
         argparse.classified_args p plain_world
           (with_profile plain_world ["--with-tox"; "my-project//"]) = Ok toks
         /\ head (positional_arguments p toks) = Some name
         /\ r !! "project" = Some (VStr (Str.rstrip posixpath.sep name))
         /\ (forall base n,
               name = base +:+ Str.repeat_char posixpath.sep n ->
               Str.endswith_char base posixpath.sep = false ->
               r !! "project" = Some (VStr base))
         /\ (Str.endswith_char name posixpath.sep = false ->
             r !! "project" = Some (VStr name))
         /\ (forall first rest,
               argparse.read_args_from_files plain_world
                 (recursion_limit plain_world)
                 (with_profile plain_world ["--with-tox"; "my-project//"])
               = Ok (first :: rest) ->
               Str.startswith first "-" = false ->
               name = first).
Proof.
  destruct (returned_ok (cli_parser sample_licenses sample_extenders))
    as [p Hp]; [vm_compute; reflexivity|].
  destruct (returned_ok (parse_args sample_licenses sample_extenders
                           plain_world ["--with-tox"; "my-project//"]))
    as [r Hr]; [vm_compute; reflexivity|].
  exists p, r. split; [exact Hp|].
  split; [exact (sample_parser_extends p Hp)|]. split; [exact Hr|].
  exact (project_trailing_separators_stripped sample_licenses sample_extenders
           plain_world ["--with-tox"; "my-project//"] p r Hp
           (sample_parser_extends p Hp) Hr).
Defined.

Example project_trailing_separators_stripped_sample :
  returned_value "project"
    (parse_args sample_licenses sample_extenders plain_world
       ["--with-tox"; "my-project//"])
  = Some (VStr "my-project")
  /\ returned_value "project"
       (parse_args sample_licenses sample_extenders plain_world
          ["--license"; "mozilla"; "my-project"; "-f"])
     = Some (VStr "my-project").
Proof. split; vm_compute; reflexivity. Qed.

Lemma absent_options_are_pruned_witness :
  exists r,
    parse_args sample_licenses sample_extenders plain_world
      ["my-project"; "--with-tox"] = Ok r
    /\ (forall k, r !! k <> Some VNone)
    /\ (forall p toks a,
          cli_parser sample_licenses sample_extenders = Ok p ->
          extends (default_parser sample_licenses) p ->
          argparse.classified_args p plain_world
            (with_profile plain_world ["my-project"; "--with-tox"]) = Ok toks ->
          a ∈ [package_action; description_action; url_action] ->
          (forall s tup, (s, argparse.PatO tup) ∈ toks ->
                         a ∉ option_actions p tup) ->
          r !! argparse.dest a = None).
Proof.
  destruct (returned_ok (parse_args sample_licenses sample_extenders
                           plain_world ["my-project"; "--with-tox"]))
    as [r Hr]; [vm_compute; reflexivity|].
  exists r. split; [exact Hr|].
  exact (absent_options_are_pruned sample_licenses sample_extenders plain_world
           ["my-project"; "--with-tox"] r Hr).
Defined.

(** With the profile file of the example, which sets a license and asks
    for an extension: the options without default are absent. *)
Example absent_options_are_pruned_sample :
  let result :=
    parse_args sample_licenses sample_extenders default_profile_world
      ["my-project"] in
  returned_value "package" result = None
  /\ returned_value "description" result = None
  /\ returned_value "url" result = None
  /\ returned_value "license" result = Some (VStr "mozilla")
  /\ returned_value "extensions" result = Some (VList [VObject "tox"]).
Proof. repeat split; vm_compute; reflexivity. Qed.

Lemma pretend_and_list_actions_exclusive_witness :
  exists p,
    cli_parser sample_licenses sample_extenders = Ok p
    /\ extends (default_parser sample_licenses) p
    /\ (forall r,
          parse_args sample_licenses sample_extenders plain_world
            ["my-project"; "--with-tox"; "--pretend"; "--list-actions"] = Ok r ->
          ~ (r !! "pretend" = Some (VBool true)
             /\ r !! "command" = Some (VCommand CmdListActions)))
    /\ (forall toks,
          argparse.classified_args p plain_world
            (with_profile plain_world
               ["my-project"; "--with-tox"; "--pretend"; "--list-actions"])
          = Ok toks ->
          supplies pretend_action toks ->
          supplies list_actions_action toks ->
          failed (parse_args sample_licenses sample_extenders plain_world
                    ["my-project"; "--with-tox"; "--pretend"; "--list-actions"])
          /\ fst (main sample_licenses sample_extenders unit
                    (fun _ => ([], Ok [])) (fun _ => "") ""
                    (fun _ => ([], Ok tt)) plain_world
                    ["my-project"; "--with-tox"; "--pretend"; "--list-actions"])
             = []).
Proof.
  destruct (returned_ok (cli_parser sample_licenses sample_extenders))
    as [p Hp]; [vm_compute; reflexivity|].
  exists p. split; [exact Hp|].
  split; [exact (sample_parser_extends p Hp)|].
  exact (pretend_and_list_actions_exclusive sample_licenses sample_extenders
           unit (fun _ => ([], Ok [])) (fun _ => "") ""
           (fun _ => ([], Ok tt)) plain_world
           ["my-project"; "--with-tox"; "--pretend"; "--list-actions"] p Hp
           (sample_parser_extends p Hp)).
Defined.

(** Each flag alone is accepted along with the flag of an extension; the
    two together are not. *)
Example pretend_and_list_actions_exclusive_sample :
  returned_value "command"
    (parse_args sample_licenses sample_extenders plain_world
       ["my-project"; "--with-tox"; "--list-actions"])
  = Some (VCommand CmdListActions)
  /\ returned_value "pretend"
       (parse_args sample_licenses sample_extenders plain_world
          ["my-project"; "--with-tox"; "--pretend"])
     = Some (VBool true)
  /\ returned
       (parse_args sample_licenses sample_extenders plain_world
          ["my-project"; "--with-tox"; "--pretend"; "--list-actions"])
     = false.
Proof. repeat split; vm_compute; reflexivity. Qed.


(** The file of the example sets the license and asks for an extension;
    the license given on the command line is the one returned. *)
Example profile_arguments_come_first_sample :
  returned_value "license"
    (parse_args sample_licenses sample_extenders default_profile_world
       ["my-project"])
  = Some (VStr "mozilla")
  /\ returned_value "license"
       (parse_args sample_licenses sample_extenders default_profile_world
          ["my-project"; "--license"; "gpl3"])
     = Some (VStr "gpl3")
  /\ returned_value "license"
       (parse_explicit_args sample_licenses sample_extenders
          default_profile_world ["my-project"; "--license"; "gpl3"])
     = Some (VStr "gpl3")
  /\ returned_value "extensions"
       (parse_args sample_licenses sample_extenders default_profile_world
          ["my-project"; "--license"; "gpl3"])
     = Some (VList [VObject "tox"]).
Proof. repeat split; vm_compute; reflexivity. Qed.


End Samples.
